(** * K-Means clustering over an abstract real vector space

    A shallow embedding of the Go package [clustering] ([vectors.go] and
    [clusterer.go]) together with the properties its specification states.

    - [float64] is Rocq's primitive binary64 type [float]; its operations are
      the IEEE 754 ones, so NaN, infinities and signed zeros are part of the
      model.
    - The [Vector] interface is a type class; [Vector2] is its one instance.
    - Panics and loops that need not terminate are made explicit in the
      [outcome] type: a computation returns, panics, or runs out of fuel.
    - The global random source of [math/rand] is threaded as a state.
    - A Go [map] is a [gmap]; the order in which [range] visits a map is not
      specified by the language, so functions that range over a map take the
      visiting order as an argument. *)

From Stdlib Require Import ZArith Floats Lia String.
From stdpp Require Import gmap list.

Open Scope Z_scope.

(** ** binary64 *)

Module F64.

Definition is_nan (x : float) : bool := negb (x =? x)%float.

(** [float64(n)] for an integer [n]: rounding to nearest, ties to even. *)
Definition of_int (n : Z) : float := SF2Prim (binary_normalize prec emax n 0 false).


End F64.

(** ** The Go runtime as far as the package needs it *)

(** Run-time panics the package can raise. *)
Inductive panic : Type :=
  | IndexOutOfRange (index : nat) (len : nat)
  | MakeSliceLenOutOfRange
  | NilDereference
  | ExplicitPanic (msg : string).

(** What a call does: it returns a value, it panics, or its loop is still
    running when the fuel given to it is spent. *)
Inductive outcome (A : Type) : Type :=
  | Return (a : A)
  | Panics (p : panic)
  | OutOfFuel.
Arguments Return {A} a.
Arguments Panics {A} p.
Arguments OutOfFuel {A}.

#[export] Instance outcome_ret : MRet outcome := @Return.
#[export] Instance outcome_bind : MBind outcome := fun A B f o =>
  match o with
  | Return a => f a
  | Panics p => Panics p
  | OutOfFuel => OutOfFuel
  end.

(** [s[i]] on a slice: an index outside the slice panics. *)
Definition index {A} (s : list A) (i : nat) : outcome A :=
  match s !! i with
  | Some x => Return x
  | None => Panics (IndexOutOfRange i (length s))
  end.

(** A loop over a slice whose body may panic. *)
Fixpoint foldlM {A B} (f : B -> A -> outcome B) (b : B) (l : list A) : outcome B :=
  match l with
  | [] => Return b
  | a :: l' => b' ← f b a; foldlM f b' l'
  end.

(** Go's [int] is 64 bits wide; arithmetic on it wraps around. *)
Definition max_int : Z := 2 ^ 63 - 1.
Definition wrap_int (n : Z) : Z := (n + 2 ^ 63) mod 2 ^ 64 - 2 ^ 63.

(** The [error] values of package [errors]. *)
Inductive error : Type := errors_New (msg : string).

(** The global source of [math/rand]: an unbounded supply of draws and the
    position of the next one. *)
Record Rand : Type := { draws : nat -> float; cursor : nat }.

(** A computation that may draw from the random source. *)
Definition rand (A : Type) : Type := Rand -> A * Rand.

(** [rand.Float64()] *)
Definition rand_Float64 : rand float := fun r =>
  (draws r (cursor r), {| draws := draws r; cursor := S (cursor r) |}).

(** The order in which [range] visits the keys of a map is left open by the
    language; [order] is the one the run time picks for one loop.  Keys of
    [order] that the map does not hold are not visited. *)
Definition range_map {A} (order : list Z) (m : gmap Z A) : list (Z * A) :=
  omap (fun k => pair k <$> m !! k) order.

(** [order] visits every key of the map exactly once. *)
Definition visits_each_key_once {A} (order : list Z) (m : gmap Z A) : Prop :=
  NoDup order ∧ ∀ k, k ∈ order ↔ is_Some (m !! k).

(** ** vectors.go *)

(** [VectorCreator]: [New] receives the component generator, which may itself
    draw random numbers. *)
Record VectorCreator (V : Type) : Type := {
  New : (Z -> rand float) -> rand V;
  Null : V
}.
Arguments New {V} _ _ _.
Arguments Null {V} _.

(** The [Vector] interface.  An implementation works on vectors of its own
    kind only, which the type [V] expresses. *)
Class Vector (V : Type) : Type := {
  Add : V -> V -> V;
  Subtract : V -> V -> V;
  MulScalar : V -> float -> V;
  TransposedMul : V -> V -> float;
  Length : V -> float;
  Normalize : V -> rand V;
  DistanceTo : V -> V -> float;
  Creator : V -> VectorCreator V
}.

(** [type Vector2 [2]float64] *)
Record Vector2 : Type := mkVector2 { at0 : float; at1 : float }.

Definition Vector2d (x y : float) : Vector2 := mkVector2 x y.

(** The two calls of the generator run left to right. *)
Definition vector2Creator : VectorCreator Vector2 := {|
  New := fun f r =>
    let (x, r1) := f 0 r in
    let (y, r2) := f 1 r1 in
    (mkVector2 x y, r2);
  Null := mkVector2 0 0
|}.

Definition Vector2_Add (v other : Vector2) : Vector2 :=
  mkVector2 (at0 v + at0 other) (at1 v + at1 other).

Definition Vector2_Subtract (v other : Vector2) : Vector2 :=
  mkVector2 (at0 v - at0 other) (at1 v - at1 other).

Definition Vector2_MulScalar (v : Vector2) (other : float) : Vector2 :=
  mkVector2 (at0 v * other) (at1 v * other).

Definition Vector2_TransposedMul (v other : Vector2) : float :=
  (at0 v * at0 other + at1 v * at1 other)%float.

Definition Vector2_Length (v : Vector2) : float := Vector2_TransposedMul v v.

Definition Vector2_Normalize (v : Vector2) : rand Vector2 := fun r =>
  if (Vector2_Length v =? 0)%float then
    let (x, r1) := rand_Float64 r in
    let (y, r2) := rand_Float64 r1 in
    (Vector2d x y, r2)
  else (Vector2_MulScalar v (1 / Vector2_Length v), r).

Definition Vector2_DistanceTo (v other : Vector2) : float :=
  Vector2_Length (Vector2_Subtract v other).

Definition Vector2_Creator (v : Vector2) : VectorCreator Vector2 := vector2Creator.

#[export] Instance Vector2_Vector : Vector Vector2 := {|
  Add := Vector2_Add;
  Subtract := Vector2_Subtract;
  MulScalar := Vector2_MulScalar;
  TransposedMul := Vector2_TransposedMul;
  Length := Vector2_Length;
  Normalize := Vector2_Normalize;
  DistanceTo := Vector2_DistanceTo;
  Creator := Vector2_Creator
|}.

(** [Dataset] *)
Record Dataset (V : Type) : Type := mkDataset {
  data : list V;
  creator : VectorCreator V
}.
Arguments mkDataset {V} data creator.
Arguments data {V} _.
Arguments creator {V} _.

Section Datasets.
Context {V : Type} `{Vector V}.



Definition AsSlice (dataset : Dataset V) : list V := data dataset.

Definition Count (dataset : Dataset V) : Z := Z.of_nat (length (data dataset)).

Definition IsEmpty (dataset : Dataset V) : bool := Count dataset =? 0.

Definition Max (dataset : Dataset V) : V :=
  let result := Null (creator dataset) in
  fst (foldl (fun '(result, length) vec =>
                let vecLen := Length vec in
                if (length <? vecLen)%float then (vec, vecLen) else (result, length))
             (result, Length result) (AsSlice dataset)).

End Datasets.

(** ** clusterer.go *)

(** [type Cluster int] *)
Definition Cluster : Type := Z.

(** The error [FindCluster] returns for a clusterer without centroids. *)
Definition EmptyClusterer : error :=
  errors_New "There are no centroids in the CentroidClusterer".

(** [bucketCollector]: [average] is [nil] until the first vector arrives. *)
Record bucketCollector (V : Type) : Type := mkBucket {
  average : option V;
  normalization : Z
}.
Arguments mkBucket {V} average normalization.
Arguments average {V} _.
Arguments normalization {V} _.

(** A [Sampler] may draw random numbers, and its loop may fail to end. *)
Definition Sampler (V : Type) : Type := Z -> float -> Rand -> outcome (V * Rand).

(** The convergence threshold [0.1], as the binary64 value nearest to it. *)
Definition threshold : float := 0x1.999999999999ap-4%float.

Section Clusterer.
Context {V : Type} `{Vector V}.

(** [type CentroidClusterer []Vector] *)
Definition CentroidClusterer : Type := list V.

Fixpoint Centroids_from (cluster : Z) (clusterer : list V) (mapping : gmap Z V)
  : gmap Z V :=
  match clusterer with
  | [] => mapping
  | centroid :: rest => Centroids_from (cluster + 1) rest (<[cluster := centroid]> mapping)
  end.

Definition Centroids (clusterer : CentroidClusterer) : gmap Z V :=
  Centroids_from 0 clusterer ∅.

Definition Clusters (clusterer : CentroidClusterer) : list Cluster :=
  (fun i => Z.of_nat i) <$> seq 0 (length clusterer).

(** One step of the loop of [FindCluster]. *)
Definition FindCluster_step (v : V) (assigned : Cluster * V) (entry : Z * V)
  : Cluster * V :=
  let '(assignedCluster, assignedClusterCentroid) := assigned in
  let '(cluster, centroid) := entry in
  if (DistanceTo centroid v <? DistanceTo assignedClusterCentroid v)%float
  then (cluster, centroid)
  else (assignedCluster, assignedClusterCentroid).

(** [FindCluster]; [order] is the order in which the loop visits the map that
    [Centroids] builds.  Looking up a key the map lacks gives a [nil] vector,
    on which the first comparison of the loop panics. *)
Definition FindCluster (order : list Z) (clusterer : CentroidClusterer) (v : V)
  : outcome (Cluster * option error) :=
  if (size (Centroids clusterer) =? 0)%nat then Return (-1, Some EmptyClusterer)
  else
    match Centroids clusterer !! 0 with
    | None =>
        match range_map order (Centroids clusterer) with
        | [] => Return (0, None)
        | _ :: _ => Panics NilDereference
        end
    | Some centroid0 =>
        Return (fst (foldl (FindCluster_step v) (0, centroid0)
                       (range_map order (Centroids clusterer))), None)
    end.

(** The loop of [ClusteredPartition]; [call] counts the calls of
    [FindCluster] made so far, and [orders call] is the order the map is
    visited in during that call. *)
Fixpoint ClusteredPartition_loop (orders : nat -> list Z) (clusterer : CentroidClusterer)
    (call : nat) (vecs : list V) (partition : gmap Z (list V))
  : outcome (option (gmap Z (list V)) * option error) :=
  match vecs with
  | [] => Return (Some partition, None)
  | vec :: rest =>
      '(cluster, err) ← FindCluster (orders call) clusterer vec;
      match err with
      | Some e => Return (None, Some e)
      | None =>
          ClusteredPartition_loop orders clusterer (S call) rest
            (<[cluster := default [] (partition !! cluster) ++ [vec]]> partition)
      end
  end.

Definition ClusteredPartition (orders : nat -> list Z) (clusterer : CentroidClusterer)
    (dataset : Dataset V) : outcome (option (gmap Z (list V)) * option error) :=
  ClusteredPartition_loop orders clusterer 0 (AsSlice dataset) ∅.

(** The rejection loop of [uniformSampler]. *)
Fixpoint uniformSampler_loop (fuel : nat) (creator : VectorCreator V) (vec : V) (r : Rand)
  : outcome (V * Rand) :=
  if ((Length vec =? 0) || (1 <? Length vec))%float then
    match fuel with
    | O => OutOfFuel
    | S fuel' =>
        let (vec', r') := New creator (fun _ => rand_Float64) r in
        uniformSampler_loop fuel' creator vec' r'
    end
  else Return (vec, r).

Definition uniformSampler (fuel : nat) (creator : VectorCreator V) : Sampler V :=
  fun k max r =>
    '(vec, r') ← uniformSampler_loop fuel creator (Null creator) r;
    Return (MulScalar vec max, r').

(** [Collect]; the collector is an element of the slice of buckets, so it
    is never [nil] itself. *)
Definition Collect (collector : bucketCollector V) (vec : V) : bucketCollector V :=
  let average' :=
    match average collector with
    | None => vec
    | Some sum => Add sum vec
    end in
  mkBucket (Some average') (wrap_int (normalization collector + 1)).

(** [Average] *)
Definition Average (collector : bucketCollector V) : option V :=
  match average collector with
  | None => None
  | Some sum => Some (MulScalar sum (1 / F64.of_int (normalization collector)))
  end.

(** The inner loop of [collectClusters]: the scan for the centroid of one
    record, from the starting state [(cluster, distToCluster)]. *)
Definition nearest_step (record : V) (best : nat * float) (entry : nat * V)
  : nat * float :=
  let '(cluster, distToCluster) := best in
  let '(k, centroid) := entry in
  let distToCentroid := DistanceTo record centroid in
  if (distToCentroid <? distToCluster)%float then (k, distToCentroid)
  else (cluster, distToCluster).

Definition nearest (centroids : list V) (record : V) : outcome nat :=
  centroid0 ← index centroids 0;
  Return (fst (foldl (nearest_step record) (0%nat, DistanceTo centroid0 record)
                 (imap pair centroids))).

Definition collectClusters (dataset : Dataset V) (centroids : list V)
  : outcome (list (bucketCollector V)) :=
  let k := length centroids in
  let buckets := replicate k (mkBucket None 0) in
  foldlM (fun buckets record =>
            cluster ← nearest centroids record;
            bucket ← index buckets cluster;
            Return (<[cluster := Collect bucket record]> buckets))
         buckets (AsSlice dataset).

Definition createNewCentroids (centroids : list V) (buckets : list (bucketCollector V))
  : outcome (list V * list float) :=
  let k := length centroids in
  let deltas := replicate k 0%float in
  foldlM (fun '(centroids, deltas) i =>
            bucket ← index buckets i;
            match Average bucket with
            | Some newCentroid =>
                old ← index centroids i;
                Return (<[i := newCentroid]> centroids,
                        <[i := DistanceTo old newCentroid]> deltas)
            | None => Return (centroids, deltas)
            end)
         (centroids, deltas) (seq 0 k).

(** The largest of the deltas of one pass. *)
Definition largest_delta (deltas : list float) : float :=
  foldl (fun maxDelta delta => if (maxDelta <? delta)%float then delta else maxDelta)
        0%float deltas.

(** The refinement loop of [KMeansWithCentroids]; one unit of fuel per pass. *)
Fixpoint refine (fuel : nat) (dataset : Dataset V) (maxDelta : float) (centroids : list V)
  : outcome (list V) :=
  if (threshold <? maxDelta)%float then
    match fuel with
    | O => OutOfFuel
    | S fuel' =>
        buckets ← collectClusters dataset centroids;
        '(centroids', deltas) ← createNewCentroids centroids buckets;
        refine fuel' dataset (largest_delta deltas) centroids'
    end
  else Return centroids.

Definition KMeansWithCentroids (fuel : nat) (dataset : Dataset V) (centroids : list V)
  : outcome CentroidClusterer :=
  if IsEmpty dataset then Return []
  else refine fuel dataset 1%float centroids.

(** [makeCentroids]: [make] panics on a negative length; the slots are then
    filled in index order. *)
Definition makeCentroids (k : Z) (dataset : Dataset V) (sampler : Sampler V) (r : Rand)
  : outcome (list V * Rand) :=
  if k <? 0 then Panics MakeSliceLenOutOfRange
  else
    let maxLen := Length (Max dataset) in
    foldlM (fun '(centroids, r) i =>
              '(vec, r') ← sampler (Z.of_nat i) maxLen r;
              Return (centroids ++ [vec], r'))
           ([], r) (seq 0 (Z.to_nat k)).

Definition KMeansWithSampler (fuel : nat) (dataset : Dataset V) (k : Z)
    (sampler : Sampler V) (r : Rand) : outcome (CentroidClusterer * Rand) :=
  if IsEmpty dataset then Return ([], r)
  else
    '(centroids, r') ← makeCentroids k dataset sampler r;
    clusterer ← KMeansWithCentroids fuel dataset centroids;
    Return (clusterer, r').

(** [KMeans]; [sfuel] bounds the rejection loop of the uniform sampler. *)
Definition KMeans (fuel sfuel : nat) (dataset : Dataset V) (k : Z) (r : Rand)
  : outcome (CentroidClusterer * Rand) :=
  if IsEmpty dataset then Return ([], r)
  else
    first ← index (AsSlice dataset) 0;
    KMeansWithSampler fuel dataset k (uniformSampler sfuel (Creator first)) r.

End Clusterer.

(** ** examples/kmeans.go *)


(** ** Vocabulary of the statements *)

(** The vectors of [vecs] whose position, counted from [i], is assigned to
    cluster [c] by [assign], in the order of [vecs]. *)
Fixpoint members_from {V : Type} (assign : nat -> Z) (i : nat) (vecs : list V) (c : Z)
  : list V :=
  match vecs with
  | [] => []
  | v :: rest =>
      if decide (assign i = c) then v :: members_from assign (S i) rest c
      else members_from assign (S i) rest c
  end.

(** All vectors held by a partition, cluster after cluster. *)
Definition all_vectors {V : Type} (partition : gmap Z (list V)) : list V :=
  concat (snd <$> map_to_list partition).

(** The records counted by a slice of buckets. *)
Definition total_count {V : Type} (buckets : list (bucketCollector V)) : Z :=
  foldr (fun bucket sum => normalization bucket + sum) 0 buckets.

Section Vocabulary.
Context {V : Type} `{Vector V}.

(** The index the scan of [collectClusters] ends on for [record]. *)
Definition nearest_index (centroids : list V) (record : V) : nat :=
  match nearest centroids record with
  | Return cluster => cluster
  | _ => 0%nat
  end.

(** The records the assignment step puts into bucket [i], in dataset order. *)
Definition assigned_to (centroids : list V) (records : list V) (i : nat) : list V :=
  filter (fun record => nearest_index centroids record = i) records.

(** The state of the scan after the centroids of [l] have been compared. *)
Definition scan (record : V) (d0 : float) (l : list V) : nat * float :=
  foldl (nearest_step record) (0%nat, d0) (imap pair l).

(** What [createNewCentroids] leaves at index [i]. *)
Definition updated_centroid (buckets : list (bucketCollector V)) (i : nat) (old : V) : V :=
  match buckets !! i ≫= Average with
  | Some newCentroid => newCentroid
  | None => old
  end.

Definition recorded_delta (buckets : list (bucketCollector V)) (i : nat) (old : V)
    (d : float) : float :=
  match buckets !! i ≫= Average with
  | Some newCentroid => DistanceTo old newCentroid
  | None => d
  end.

(** One step of the loop of [Max]. *)
Definition Max_step (best : V * float) (vec : V) : V * float :=
  let '(result, length) := best in
  let vecLen := Length vec in
  if (length <? vecLen)%float then (vec, vecLen) else (result, length).

End Vocabulary.

(** ** Facts about binary64 arithmetic and comparison *)

Module F64Facts.
Import F64.

(** Comparison *)

Lemma SFcompare_cont m1 m2 : PosDef.Pos.compare_cont Eq m1 m2 = (m1 ?= m2)%positive.
Proof. reflexivity. Qed.

Ltac cmp_cases :=
  repeat match goal with
  | |- context [Z.compare ?a ?b] => destruct (Z.compare_spec a b)
  | H : context [Z.compare ?a ?b] |- _ => destruct (Z.compare_spec a b)
  | |- context [Pos.compare ?a ?b] => destruct (Pos.compare_spec a b)
  | H : context [Pos.compare ?a ?b] |- _ => destruct (Pos.compare_spec a b)
  end.

Lemma SFltb_irrefl x : SFltb x x = false.
Proof.
  unfold SFltb, SFcompare. destruct x as [s|s| |s m e]; try destruct s; try reflexivity;
    rewrite ?SFcompare_cont; cmp_cases; simpl; try reflexivity; lia.
Qed.

Lemma SFltb_trans x y z : SFltb x y = true → SFltb y z = true → SFltb x z = true.
Proof.
  unfold SFltb, SFcompare.
  destruct x as [[]|[]| |[] mx ex], y as [[]|[]| |[] my ey], z as [[]|[]| |[] mz ez];
    try discriminate; try reflexivity;
    intros H1 H2; rewrite ?SFcompare_cont in *;
    cmp_cases; simpl in *; try discriminate; try reflexivity; try lia.
Qed.

Lemma SFleb_ltb_trans x y z : SFleb x y = true → SFltb y z = true → SFltb x z = true.
Proof.
  unfold SFleb, SFltb, SFcompare.
  destruct x as [[]|[]| |[] mx ex], y as [[]|[]| |[] my ey], z as [[]|[]| |[] mz ez];
    try discriminate; try reflexivity;
    intros H1 H2; rewrite ?SFcompare_cont in *;
    cmp_cases; simpl in *; try discriminate; try reflexivity; try lia.
Qed.

Lemma SFltb_leb_total x y :
  SFeqb x x = true → SFeqb y y = true → SFltb y x = false → SFleb x y = true.
Proof.
  unfold SFleb, SFltb, SFeqb, SFcompare.
  destruct x as [[]|[]| |[] mx ex], y as [[]|[]| |[] my ey];
    try discriminate; try reflexivity;
    intros H1 H2 H3; rewrite ?SFcompare_cont in *;
    cmp_cases; simpl in *; try discriminate; try reflexivity; try lia.
Qed.

Lemma SFleb_ltb_total x y :
  SFeqb x x = true → SFeqb y y = true → SFleb x y = false → SFltb y x = true.
Proof.
  unfold SFleb, SFltb, SFeqb, SFcompare.
  destruct x as [[]|[]| |[] mx ex], y as [[]|[]| |[] my ey];
    try discriminate; try reflexivity;
    intros H1 H2 H3; rewrite ?SFcompare_cont in *;
    cmp_cases; simpl in *; try discriminate; try reflexivity; try lia.
Qed.

Lemma SFltb_leb_trans x y z : SFltb x y = true → SFleb y z = true → SFltb x z = true.
Proof.
  unfold SFleb, SFltb, SFcompare.
  destruct x as [[]|[]| |[] mx ex], y as [[]|[]| |[] my ey], z as [[]|[]| |[] mz ez];
    try discriminate; try reflexivity;
    intros H1 H2; rewrite ?SFcompare_cont in *;
    cmp_cases; simpl in *; try discriminate; try reflexivity; try lia.
Qed.

Lemma ltb_irrefl (x : float) : (x <? x)%float = false.
Proof. rewrite FloatAxioms.ltb_spec. apply SFltb_irrefl. Qed.

Lemma ltb_trans (x y z : float) :
  (x <? y)%float = true → (y <? z)%float = true → (x <? z)%float = true.
Proof. rewrite !FloatAxioms.ltb_spec. apply SFltb_trans. Qed.

Lemma leb_ltb_trans (x y z : float) :
  (x <=? y)%float = true → (y <? z)%float = true → (x <? z)%float = true.
Proof. rewrite FloatAxioms.leb_spec, !FloatAxioms.ltb_spec. apply SFleb_ltb_trans. Qed.

Lemma ltb_leb_trans (x y z : float) :
  (x <? y)%float = true → (y <=? z)%float = true → (x <? z)%float = true.
Proof. rewrite FloatAxioms.leb_spec, !FloatAxioms.ltb_spec. apply SFltb_leb_trans. Qed.

Lemma ltb_leb_total (x y : float) :
  is_nan x = false → is_nan y = false → (y <? x)%float = false → (x <=? y)%float = true.
Proof.
  unfold is_nan. rewrite !FloatAxioms.eqb_spec, FloatAxioms.ltb_spec, FloatAxioms.leb_spec.
  intros Hx%negb_false_iff Hy%negb_false_iff. by apply SFltb_leb_total.
Qed.

Lemma leb_ltb_total (x y : float) :
  is_nan x = false → is_nan y = false → (x <=? y)%float = false → (y <? x)%float = true.
Proof.
  unfold is_nan. rewrite !FloatAxioms.eqb_spec, FloatAxioms.ltb_spec, FloatAxioms.leb_spec.
  intros Hx%negb_false_iff Hy%negb_false_iff. by apply SFleb_ltb_total.
Qed.

(** Arithmetic facts *)

Lemma binary_round_aux_opp s m e l :
  binary_round_aux prec emax (negb s) m e l = SFopp (binary_round_aux prec emax s m e l).
Proof.
  unfold binary_round_aux.
  destruct (shr_fexp prec emax m e l) as [mrs' e'].
  destruct (shr_fexp prec emax _ e' loc_Exact) as [mrs'' e''].
  destruct (shr_m mrs''); [reflexivity| |reflexivity].
  now destruct (e'' <=? emax - prec).
Qed.

Lemma binary_round_opp s m e :
  binary_round prec emax (negb s) m e = SFopp (binary_round prec emax s m e).
Proof.
  unfold binary_round. destruct (shl_align _ _ _) as [mz ez]. apply binary_round_aux_opp.
Qed.

Lemma binary_normalize_opp m e :
  binary_normalize prec emax (- m) e false = SFopp (binary_normalize prec emax m e false)
  ∨ m = 0.
Proof.
  destruct m as [|p|p]; [by right|left..]; simpl.
  - apply (binary_round_opp false).
  - rewrite (binary_round_opp false). by destruct (binary_round _ _ _ _ _) as [[]|[]| |[] ? ?].
Qed.

Lemma SF64sub_swap x y :
  SF64sub y x = SFopp (SF64sub x y)
  ∨ (SF64sub x y = S754_zero false ∧ SF64sub y x = S754_zero false).
Proof.
  destruct x as [[]|[]| |sx mx ex], y as [[]|[]| |sy my ey]; simpl;
    try (by left); try (by right); try (left; by rewrite negb_involutive).
  unfold SF64sub, SFsub. rewrite (Z.min_comm ey ex).
  set (a := cond_Zopp sx _). set (b := cond_Zopp sy _).
  replace (b - a) with (- (a - b)) by lia.
  destruct (binary_normalize_opp (a - b) (Z.min ex ey)) as [->|E]; [by left|].
  right. by rewrite E.
Qed.

Lemma SF64mul_opp_opp u : SF64mul (SFopp u) (SFopp u) = SF64mul u u.
Proof. by destruct u as [[]|[]| |[] m e]. Qed.

Lemma square_sub_swap (x y : float) :
  ((y - x) * (y - x))%float = ((x - y) * (x - y))%float.
Proof.
  apply Prim2SF_inj. rewrite !mul_spec, !sub_spec.
  destruct (SF64sub_swap (Prim2SF x) (Prim2SF y)) as [->|[-> ->]]; [|done].
  apply SF64mul_opp_opp.
Qed.

Lemma SF64sub_diag x : SF64sub x x = S754_nan ∨ SF64sub x x = S754_zero false.
Proof.
  destruct x as [[]|[]| |s m e]; simpl; auto.
  right. unfold SF64sub, SFsub. by rewrite Z.sub_diag.
Qed.

Lemma sub_diag (x : float) : (x - x)%float = nan ∨ (x - x)%float = zero.
Proof.
  destruct (SF64sub_diag (Prim2SF x)) as [E|E]; [left|right];
    apply Prim2SF_inj; by rewrite sub_spec, E.
Qed.

Lemma Prim2SF_one : Prim2SF 1 = S754_finite false 4503599627370496 (-52).
Proof. reflexivity. Qed.

Lemma SF64mul_one_r x : valid_binary x = true → SF64mul x (Prim2SF 1) = x.
Proof.
  rewrite Prim2SF_one.
  destruct x as [[]|[]| |s m e]; try reflexivity.
  unfold SpecFloat.valid_binary, bounded, canonical_mantissa.
  intros [Hc%Z.eqb_eq Hb]%andb_prop.
  unfold SF64mul, SFmul. rewrite xorb_false_r.
  rewrite !Pos.mul_xO_r, Pos.mul_1_r.
  unfold binary_round_aux, shr_fexp.
  match goal with |- context [Zdigits2 (Z.pos ?P) + _] =>
    assert (Hd : Zdigits2 (Z.pos P) + (e + -52) = Z.pos (digits2_pos m) + e)
  end.
  { cbn [Zdigits2 digits2_pos]. rewrite !Pos2Z.inj_succ. lia. }
  rewrite Hd, Hc.
  replace (e - (e + -52)) with 52 by lia.
  cbn [shr shr_record_of_loc].
  cbn. clear Hd.
  replace (e + -52 + 52) with e by lia.
  rewrite Hc, Z.sub_diag. cbn. by rewrite Hb.
Qed.

Lemma mul_one_r (x : float) : (x * 1)%float = x.
Proof.
  apply Prim2SF_inj. rewrite mul_spec. apply SF64mul_one_r, Prim2SF_valid.
Qed.

(** A strict comparison that holds involves no NaN. *)
Lemma SFltb_true_not_nan x y :
  SFltb x y = true → SFeqb x x = true ∧ SFeqb y y = true.
Proof.
  unfold SFltb, SFeqb, SFcompare.
  destruct x as [[]|[]| |[] mx ex], y as [[]|[]| |[] my ey];
    try discriminate; intros _; split; try reflexivity;
    rewrite ?SFcompare_cont, ?Z.compare_refl, ?Pos.compare_refl; reflexivity.
Qed.

Lemma ltb_true_not_nan (x y : float) :
  (x <? y)%float = true → is_nan x = false ∧ is_nan y = false.
Proof.
  unfold is_nan. rewrite !FloatAxioms.eqb_spec, FloatAxioms.ltb_spec.
  intros [-> ->]%SFltb_true_not_nan. done.
Qed.

(** Commutativity *)

Lemma SF64mul_comm x y : SF64mul x y = SF64mul y x.
Proof.
  destruct x as [[]|[]| |sx mx ex], y as [[]|[]| |sy my ey]; try reflexivity;
    unfold SF64mul, SFmul; rewrite ?(xorb_comm sx sy); try reflexivity;
    try (by destruct sx); try (by destruct sy).
  by rewrite (Pos.mul_comm mx my), (Z.add_comm ex ey).
Qed.

Lemma mul_comm (x y : float) : (x * y)%float = (y * x)%float.
Proof. apply Prim2SF_inj. rewrite !mul_spec. apply SF64mul_comm. Qed.

Lemma SF64add_comm x y : SF64add x y = SF64add y x.
Proof.
  destruct x as [[]|[]| |sx mx ex], y as [[]|[]| |sy my ey]; try reflexivity.
  unfold SF64add, SFadd. by rewrite (Z.min_comm ex ey), Z.add_comm.
Qed.

Lemma add_comm (x y : float) : (x + y)%float = (y + x)%float.
Proof. apply Prim2SF_inj. rewrite !add_spec. apply SF64add_comm. Qed.

(** Signs: a square and a sum of squares are not negative. *)






End F64Facts.

(** ** Properties of the runtime model *)

Lemma foldlM_app {A B} (f : B -> A -> outcome B) (b : B) (l1 l2 : list A) :
  foldlM f b (l1 ++ l2) = (b' ← foldlM f b l1; foldlM f b' l2).
Proof.
  revert b. induction l1 as [|a l1 IH]; intros b; simpl; [done|].
  destruct (f b a); simpl; auto.
Qed.

Lemma index_Some {A} (s : list A) (i : nat) (x : A) :
  s !! i = Some x → index s i = Return x.
Proof. unfold index. by intros ->. Qed.

Lemma wrap_int_small (n : Z) : - 2 ^ 63 <= n <= max_int → wrap_int n = n.
Proof.
  unfold wrap_int, max_int. intros Hn.
  rewrite Z.mod_small; lia.
Qed.

(** ** Properties of [Centroids] and [Clusters] *)

Section ClustererFacts.
Context {V : Type} `{Vector V}.

Lemma Centroids_from_lookup (clusterer : list V) (i : Z) (mapping : gmap Z V) (k : Z) :
  Centroids_from i clusterer mapping !! k =
    if decide (i <= k < i + Z.of_nat (length clusterer))
    then clusterer !! Z.to_nat (k - i)
    else mapping !! k.
Proof.
  revert i mapping. induction clusterer as [|c rest IH]; intros i mapping; simpl.
  - case_decide; [lia|done].
  - rewrite IH. repeat case_decide; try lia.
    + replace (Z.to_nat (k - i)) with (S (Z.to_nat (k - (i + 1)))) by lia. done.
    + assert (k = i) as -> by lia.
      rewrite lookup_insert_eq. by replace (Z.to_nat (i - i)) with 0%nat by lia.
    + rewrite lookup_insert_ne; [done|lia].
Qed.

(** Every identifier [0..len-1] maps to the centroid at that position, and
    no other key is in the map. *)
Lemma Centroids_lookup (clusterer : list V) (k : Z) :
  Centroids clusterer !! k =
    if decide (0 <= k < Z.of_nat (length clusterer)) then clusterer !! Z.to_nat k else None.
Proof.
  unfold Centroids. rewrite Centroids_from_lookup, Z.sub_0_r. simpl.
  by repeat case_decide.
Qed.

Lemma Centroids_nil : Centroids ([] : list V) = ∅.
Proof. reflexivity. Qed.

Lemma Centroids_lookup_0 (centroid0 : V) (rest : list V) :
  Centroids (centroid0 :: rest) !! 0 = Some centroid0.
Proof.
  rewrite Centroids_lookup. reflexivity.
Qed.

Lemma Centroids_size_cons (centroid0 : V) (rest : list V) :
  (size (Centroids (centroid0 :: rest)) =? 0)%nat = false.
Proof.
  apply Nat.eqb_neq, (map_size_ne_0_lookup_2 _ 0).
  rewrite Centroids_lookup_0. by eexists.
Qed.

Lemma Clusters_length (clusterer : list V) :
  length (Clusters clusterer) = length clusterer.
Proof. unfold Clusters. by rewrite length_fmap, length_seq. Qed.

Lemma Clusters_lookup (clusterer : list V) (i : nat) :
  (i < length clusterer)%nat → Clusters clusterer !! i = Some (Z.of_nat i).
Proof.
  intros Hi. unfold Clusters. rewrite list_lookup_fmap, lookup_seq_lt; done.
Qed.

(** [FindCluster] on a clusterer that holds a centroid returns a cluster and
    no error, whatever the order of the visit. *)
Lemma FindCluster_cons (order : list Z) (centroid0 : V) (rest : list V) (v : V) :
  FindCluster order (centroid0 :: rest) v =
    Return (fst (foldl (FindCluster_step v) (0, centroid0)
                   (range_map order (Centroids (centroid0 :: rest)))), None).
Proof.
  unfold FindCluster. by rewrite Centroids_size_cons, Centroids_lookup_0.
Qed.

Lemma FindCluster_nil (order : list Z) (v : V) :
  FindCluster order [] v = Return (-1, Some EmptyClusterer).
Proof. reflexivity. Qed.

Lemma IsEmpty_cons (v : V) (vs : list V) (creator : VectorCreator V) :
  IsEmpty (mkDataset (v :: vs) creator) = false.
Proof. reflexivity. Qed.

End ClustererFacts.

(** ** The K-Means entry points on degenerate inputs *)

Lemma threshold_lt_one : (threshold <? 1)%float = true.
Proof. reflexivity. Qed.

Lemma threshold_lt_zero : (threshold <? 0)%float = false.
Proof. reflexivity. Qed.

Section Degenerate.
Context {V : Type} `{Vector V}.

(** The assignment step reads [centroids[0]] for the first record it meets. *)
Lemma collectClusters_no_centroids (v : V) (vs : list V) (creator : VectorCreator V) :
  collectClusters (mkDataset (v :: vs) creator) [] = Panics (IndexOutOfRange 0 0).
Proof. reflexivity. Qed.

Lemma refine_no_centroids (fuel : nat) (v : V) (vs : list V) (creator : VectorCreator V) :
  refine (S fuel) (mkDataset (v :: vs) creator) 1 [] = Panics (IndexOutOfRange 0 0).
Proof. reflexivity. Qed.

End Degenerate.

(** C7: called on an empty dataset, [KMeans], [KMeansWithSampler] and
    [KMeansWithCentroids] each return a clusterer with zero centroids and
    raise nothing, with any amount of fuel and whatever the other arguments
    are; [Clusters] of that clusterer is the empty sequence. *)
Theorem KMeans_empty_dataset {V : Type} `{Vector V}
    (creator : VectorCreator V) (fuel sfuel : nat) (k : Z) (sampler : Sampler V)
    (centroids : list V) (r : Rand) :
  let dataset := mkDataset [] creator in
  KMeans fuel sfuel dataset k r = Return ([], r)
  ∧ KMeansWithSampler fuel dataset k sampler r = Return ([], r)
  ∧ KMeansWithCentroids fuel dataset centroids = Return []
  ∧ Clusters ([] : list V) = [].
Proof. repeat split. Qed.

(** C6, counterexample: for the empty dataset an empty clusterer reports no
    error; [ClusteredPartition] returns the empty partition. *)
Lemma ClusteredPartition_empty_clusterer_empty_dataset :
  ClusteredPartition (fun _ => []) ([] : list Vector2) (mkDataset [] vector2Creator)
  = Return (Some ∅, None).
Proof. reflexivity. Qed.

(** C6, as amended: for a clusterer with zero centroids [FindCluster] fails
    with [EmptyClusterer] for every vector (and every order of visit), and
    [ClusteredPartition] returns that error, and no partition, for every
    dataset that holds at least one vector. *)
Theorem EmptyClusterer_surfaces {V : Type} `{Vector V}
    (order : list Z) (orders : nat -> list Z) (v : V) (dataset : Dataset V) :
  AsSlice dataset ≠ [] →
  FindCluster order [] v = Return (-1, Some EmptyClusterer)
  ∧ ClusteredPartition orders [] dataset = Return (None, Some EmptyClusterer).
Proof.
  intros Hne. split; [reflexivity|].
  unfold ClusteredPartition. by destruct (AsSlice dataset).
Qed.

(** The theorem at a dataset of one vector. *)
Lemma EmptyClusterer_surfaces_witness :
  AsSlice (mkDataset [Vector2d 1 2] vector2Creator) ≠ []
  ∧ FindCluster [] [] (Vector2d 1 2) = Return (-1, Some EmptyClusterer)
  ∧ ClusteredPartition (fun _ => []) [] (mkDataset [Vector2d 1 2] vector2Creator)
    = Return (None, Some EmptyClusterer).
Proof.
  split; [discriminate|].
  apply (EmptyClusterer_surfaces [] (fun _ => []) (Vector2d 1 2)
           (mkDataset [Vector2d 1 2] vector2Creator)).
  discriminate.
Defined.

(** ** [Vector2] *)

(** C3: [Length] of a [Vector2] is the inner product of the vector with
    itself, the sum of the squares of its components, and no square root is
    taken: the length of (3, 4) is 25, whose square root is 5.  Hence
    [DistanceTo] is that sum of squares for the difference of the vectors. *)
Theorem Length_is_squared_norm (v a b : Vector2) :
  Length v = TransposedMul v v
  ∧ Length v = (at0 v * at0 v + at1 v * at1 v)%float
  ∧ DistanceTo a b = Length (Subtract a b)
  ∧ DistanceTo a b
    = ((at0 a - at0 b) * (at0 a - at0 b) + (at1 a - at1 b) * (at1 a - at1 b))%float
  ∧ Length (Vector2d 3 4) = 25%float
  ∧ sqrt (Length (Vector2d 3 4)) = 5%float
  ∧ (Length (Vector2d 3 4) =? 5)%float = false.
Proof. repeat split. Qed.

(** C1: [Normalize] does not return a vector of length 1.  For (2, 0) it
    returns (0.5, 0), whose [Length] is 0.25 and whose Euclidean norm is 0.5.
    For the null vector it returns the next two draws of the random source as
    components, whatever they are: with both draws 0.5 the [Length] is 0.5,
    and with both draws 0 the result is the null vector again. *)
Theorem Normalize_not_unit_length (r : Rand) :
  fst (Normalize (Vector2d 2 0) r) = Vector2d 0.5 0
  ∧ Length (fst (Normalize (Vector2d 2 0) r)) = 0.25%float
  ∧ sqrt (Length (fst (Normalize (Vector2d 2 0) r))) = 0.5%float
  ∧ fst (Normalize (Vector2d 0 0) r)
    = Vector2d (draws r (cursor r)) (draws r (S (cursor r)))
  ∧ Length (fst (Normalize (Vector2d 0 0) {| draws := fun _ => 0.5%float; cursor := 0 |}))
    = 0.5%float
  ∧ fst (Normalize (Vector2d 0 0) {| draws := fun _ => 0%float; cursor := 0 |})
    = Vector2d 0 0.
Proof. repeat split. Qed.

(** ** [FindCluster]: the scan over the map of centroids *)

Section FindClusterFacts.
Context {V : Type} `{Vector V}.

Lemma elem_of_range_map (order : list Z) (m : gmap Z V) (k : Z) (x : V) :
  (k, x) ∈ range_map order m ↔ k ∈ order ∧ m !! k = Some x.
Proof.
  unfold range_map. rewrite list_elem_of_omap. split.
  - intros (k' & Hk' & Hx). destruct (m !! k') as [y|] eqn:E; simplify_eq/=. done.
  - intros [Hk Hx]. exists k. by rewrite Hx.
Qed.

(** The scan ends on its starting entry or on a visited entry strictly
    closer than it, and no visited entry is strictly closer than the one it
    ends on. *)
Lemma FindCluster_scan (v : V) (entries : list (Z * V)) (start : Z * V) :
  let res := foldl (FindCluster_step v) start entries in
  (res = start
   ∨ (res ∈ entries ∧ (DistanceTo res.2 v <? DistanceTo start.2 v)%float = true))
  ∧ ∀ e, e ∈ entries → (DistanceTo e.2 v <? DistanceTo res.2 v)%float = false.
Proof.
  revert start. induction entries as [|e es IH]; intros start res.
  { split; [by left|]. intros e He. by apply elem_of_nil in He. }
  subst res. simpl.
  destruct (IH (FindCluster_step v start e)) as [Hres Hmin].
  set (res := foldl _ _ es) in *.
  destruct start as [ac acc], e as [k c]. unfold FindCluster_step in Hres. simpl in *.
  destruct (DistanceTo c v <? DistanceTo acc v)%float eqn:Hlt; simpl in *.
  - split.
    + right. destruct Hres as [->|[Hin Hlt']]; simpl.
      * split; [left|done].
      * split; [by right|]. eapply F64Facts.ltb_trans; eauto.
    + intros e [->|He]%elem_of_cons; [|by apply Hmin]. simpl.
      destruct Hres as [->|[_ Hlt']]; [apply F64Facts.ltb_irrefl|].
      destruct (DistanceTo c v <? DistanceTo res.2 v)%float eqn:E; [|done].
      pose proof (F64Facts.ltb_trans _ _ _ Hlt' E) as Hcyc.
      by rewrite F64Facts.ltb_irrefl in Hcyc.
  - split.
    + destruct Hres as [->|[Hin Hlt']]; [by left|right]. split; [by right|done].
    + intros e [->|He]%elem_of_cons; [|by apply Hmin]. simpl.
      destruct Hres as [->|[_ Hlt']]; [done|].
      destruct (DistanceTo c v <? DistanceTo res.2 v)%float eqn:E; [|done].
      by rewrite (F64Facts.ltb_trans _ _ _ E Hlt') in Hlt.
Qed.

(** X4: whatever order the map is visited in, [FindCluster] returns the
    identifier of a centroid than which no centroid is strictly closer to
    [v]; it returns 0 when no centroid is strictly closer than the first. *)
Lemma FindCluster_no_closer (order : list Z) (clusterer : list V) (v : V) :
  clusterer ≠ [] →
  visits_each_key_once order (Centroids clusterer) →
  ∃ cluster centroid,
    FindCluster order clusterer v = Return (cluster, None)
    ∧ Centroids clusterer !! cluster = Some centroid
    ∧ (∀ j cj, Centroids clusterer !! j = Some cj →
         (DistanceTo cj v <? DistanceTo centroid v)%float = false)
    ∧ ((∀ j cj c0, Centroids clusterer !! j = Some cj → Centroids clusterer !! 0 = Some c0 →
          (DistanceTo cj v <? DistanceTo c0 v)%float = false) → cluster = 0).
Proof.
  intros Hne [_ Hall]. destruct clusterer as [|c0 rest]; [done|].
  rewrite FindCluster_cons.
  pose proof (FindCluster_scan v (range_map order (Centroids (c0 :: rest))) (0, c0))
    as [Hres Hmin].
  set (res := foldl _ _ _) in *. simpl in *.
  exists res.1, res.2. split; [done|].
  assert (Hin : Centroids (c0 :: rest) !! res.1 = Some res.2).
  { destruct Hres as [->|[Hin _]]; [apply Centroids_lookup_0|].
    destruct res. by apply elem_of_range_map in Hin as [_ ?]. }
  split; [done|]. split.
  - intros j cj Hj. apply (Hmin (j, cj)), elem_of_range_map. split; [|done].
    apply Hall. by eexists.
  - intros H0. destruct Hres as [->|[_ Hlt]]; [done|].
    by rewrite (H0 _ _ c0 Hin (Centroids_lookup_0 _ _)) in Hlt.
Qed.

End FindClusterFacts.

(** C2: the tie-break of [FindCluster] depends on the order in which [range]
    visits the map built by [Centroids].  With centroids (3, 0), (1, 0) and
    (-1, 0) and the vector (0, 0), clusters 1 and 2 are both at the least
    distance 1.  Visiting the keys as 0, 1, 2 returns cluster 1; visiting
    them as 2, 1, 0, which the language allows as well, returns cluster 2. *)
Theorem FindCluster_tie_follows_visit_order :
  let clusterer := [Vector2d 3 0; Vector2d 1 0; Vector2d (-1) 0] in
  let v := Vector2d 0 0 in
  visits_each_key_once [0; 1; 2] (Centroids clusterer)
  ∧ visits_each_key_once [2; 1; 0] (Centroids clusterer)
  ∧ DistanceTo (Vector2d 3 0) v = 9%float
  ∧ DistanceTo (Vector2d 1 0) v = 1%float
  ∧ DistanceTo (Vector2d (-1) 0) v = 1%float
  ∧ FindCluster [0; 1; 2] clusterer v = Return (1, None)
  ∧ FindCluster [2; 1; 0] clusterer v = Return (2, None).
Proof.
  assert (Hkeys : ∀ order : list Z,
            NoDup order → (∀ k, k ∈ order ↔ 0 <= k < 3) →
            visits_each_key_once order
              (Centroids [Vector2d 3 0; Vector2d 1 0; Vector2d (-1) 0])).
  { intros order Hnd Hk. split; [done|]. intros k. rewrite Hk, Centroids_lookup. simpl.
    case_decide as Hd; [|split; [lia|by intros [? ?]]].
    split; [intros _|done]. apply lookup_lt_is_Some. simpl. lia. }
  split; [|split; [|done]].
  - apply Hkeys; [compute_done|]. intros k. rewrite !elem_of_cons, elem_of_nil. lia.
  - apply Hkeys; [compute_done|]. intros k. rewrite !elem_of_cons, elem_of_nil. lia.
Qed.

(** ** [ClusteredPartition] *)

Section PartitionFacts.
Context {V : Type} `{Vector V}.

Lemma members_from_sublist (assign : nat -> Z) (i : nat) (vecs : list V) (c : Z) :
  sublist (members_from assign i vecs c) vecs.
Proof.
  revert i. induction vecs as [|v rest IH]; intros i; simpl; [constructor|].
  case_decide; [apply sublist_skip|apply sublist_cons]; apply IH.
Qed.

Lemma concat_snd_Permutation (l1 l2 : list (Z * list V)) :
  l1 ≡ₚ l2 → concat (snd <$> l1) ≡ₚ concat (snd <$> l2).
Proof.
  induction 1 as [|x l1 l2 _ IH|x y l|l1 l2 l3 _ IH1 _ IH2]; simpl.
  - done.
  - by rewrite IH.
  - rewrite !app_assoc. f_equiv. apply Permutation_app_comm.
  - by rewrite IH1.
Qed.

(** Appending one vector to the list of one cluster adds that vector to the
    vectors the partition holds, and nothing else. *)
Lemma all_vectors_append (partition : gmap Z (list V)) (cluster : Z) (vec : V) :
  all_vectors (<[cluster := default [] (partition !! cluster) ++ [vec]]> partition)
  ≡ₚ all_vectors partition ++ [vec].
Proof.
  unfold all_vectors. destruct (partition !! cluster) as [old|] eqn:E; simpl.
  - rewrite <- (insert_delete_eq partition).
    rewrite <- (insert_delete_id partition cluster old E) at 2.
    rewrite !(concat_snd_Permutation _ _ (map_to_list_insert _ _ _ (lookup_delete_eq _ _))).
    simpl. rewrite <- !app_assoc. f_equiv. apply Permutation_app_comm.
  - rewrite (concat_snd_Permutation _ _ (map_to_list_insert _ _ _ E)). simpl.
    apply Permutation_cons_append.
Qed.

Lemma ClusteredPartition_loop_spec (orders : nat -> list Z) (clusterer : list V)
    (assign : nat -> Z) (vecs : list V) :
  ∀ (i : nat) (partition : gmap Z (list V)),
  (∀ j v, vecs !! j = Some v →
     FindCluster (orders (i + j)%nat) clusterer v = Return (assign (i + j)%nat, None)) →
  ∃ partition',
    ClusteredPartition_loop orders clusterer i vecs partition = Return (Some partition', None)
    ∧ (∀ c, default [] (partition' !! c)
            = default [] (partition !! c) ++ members_from assign i vecs c)
    ∧ (∀ c, partition' !! c = None
            ↔ partition !! c = None ∧ members_from assign i vecs c = [])
    ∧ all_vectors partition' ≡ₚ all_vectors partition ++ vecs.
Proof.
  induction vecs as [|v rest IH]; intros i partition Hfind; simpl.
  { exists partition. split; [done|]. split; [|split].
    - intros c. by rewrite app_nil_r.
    - intros c. split; [by intros ?|by intros [? _]].
    - by rewrite app_nil_r. }
  pose proof (Hfind 0%nat v eq_refl) as Hv. rewrite Nat.add_0_r in Hv.
  rewrite Hv. simpl.
  set (partition1 := <[assign i := default [] (partition !! assign i) ++ [v]]> partition).
  destruct (IH (S i) partition1) as (partition' & Hrun & Hget & Hnone & Hperm).
  { intros j w Hj. specialize (Hfind (S j) w Hj).
    by replace (S i + j)%nat with (i + S j)%nat by lia. }
  exists partition'. split; [done|]. split; [|split].
  - intros c. rewrite Hget. subst partition1. case_decide as Hc.
    + subst c. rewrite lookup_insert_eq. simpl. by rewrite <- app_assoc.
    + by rewrite lookup_insert_ne.
  - intros c. rewrite Hnone. subst partition1. case_decide as Hc.
    + subst c. rewrite lookup_insert_eq. split; [by intros [? _]|by intros [_ ?]].
    + by rewrite lookup_insert_ne.
  - rewrite Hperm. subst partition1. rewrite all_vectors_append.
    by rewrite <- app_assoc.
Qed.

End PartitionFacts.

(** C5: for a clusterer that holds a centroid, [ClusteredPartition] returns a
    partition and no error, whatever orders the map of centroids is visited
    in.  Position [i] of the dataset is assigned the one cluster that the
    [i]-th call of [FindCluster] returns; the list of a cluster holds exactly
    the vectors at the positions assigned to it, in dataset order, and a
    cluster without such a position has no list.  Hence the lists together
    hold the vectors of the dataset, each as often as the dataset does, their
    sizes add up to the size of the dataset, and each list keeps the relative
    order of the dataset. *)
Theorem ClusteredPartition_is_partition {V : Type} `{Vector V}
    (orders : nat -> list Z) (clusterer : list V) (dataset : Dataset V) :
  clusterer ≠ [] →
  ∃ (partition : gmap Z (list V)) (assign : nat -> Z),
    ClusteredPartition orders clusterer dataset = Return (Some partition, None)
    ∧ (∀ i v, AsSlice dataset !! i = Some v →
         FindCluster (orders i) clusterer v = Return (assign i, None))
    ∧ (∀ c, partition !! c =
            match members_from assign 0 (AsSlice dataset) c with
            | [] => None
            | v :: vs => Some (v :: vs)
            end)
    ∧ all_vectors partition ≡ₚ AsSlice dataset
    ∧ sum_list (length <$> (snd <$> map_to_list partition)) = length (AsSlice dataset)
    ∧ (∀ c l, partition !! c = Some l → sublist l (AsSlice dataset)).
Proof.
  intros Hne. destruct clusterer as [|c0 rest]; [done|].
  set (assign := fun i : nat =>
         match AsSlice dataset !! i with
         | Some v => fst (foldl (FindCluster_step v) (0, c0)
                            (range_map (orders i) (Centroids (c0 :: rest))))
         | None => 0
         end).
  assert (Hassign : ∀ i v, AsSlice dataset !! i = Some v →
            FindCluster (orders i) (c0 :: rest) v = Return (assign i, None)).
  { intros i v Hi. rewrite FindCluster_cons. unfold assign. by rewrite Hi. }
  destruct (ClusteredPartition_loop_spec orders (c0 :: rest) assign (AsSlice dataset) 0 ∅)
    as (partition & Hrun & Hget & Hnone & Hperm); [by apply Hassign|].
  assert (Hlookup : ∀ c, partition !! c =
            match members_from assign 0 (AsSlice dataset) c with
            | [] => None
            | v :: vs => Some (v :: vs)
            end).
  { intros c. specialize (Hget c). specialize (Hnone c).
    rewrite lookup_empty in Hget, Hnone. simpl in Hget.
    destruct (members_from assign 0 (AsSlice dataset) c) as [|v vs].
    - by apply Hnone.
    - destruct (partition !! c) as [l|]; [simpl in Hget; by subst|].
      by destruct Hnone as [[_ ?] _]. }
  unfold all_vectors in *. simpl in Hperm.
  exists partition, assign. repeat split; try done.
  - by rewrite <- length_concat, Hperm.
  - intros c l Hl. rewrite Hlookup in Hl.
    pose proof (members_from_sublist assign 0 (AsSlice dataset) c) as Hsub.
    destruct (members_from assign 0 (AsSlice dataset) c); by simplify_eq.
Qed.

(** The theorem at two centroids and three vectors, the map being visited
    from key 1 to key 0 in every call. *)
Lemma ClusteredPartition_is_partition_witness :
  [Vector2d 0 0; Vector2d 10 10] ≠ []
  ∧ ∃ (partition : gmap Z (list Vector2)) (assign : nat -> Z),
      ClusteredPartition (fun _ => [1; 0]) [Vector2d 0 0; Vector2d 10 10]
        (mkDataset [Vector2d 1 1; Vector2d 9 9; Vector2d 0 1] vector2Creator)
      = Return (Some partition, None)
      ∧ (∀ i v,
           AsSlice (mkDataset [Vector2d 1 1; Vector2d 9 9; Vector2d 0 1] vector2Creator) !! i
           = Some v →
           FindCluster [1; 0] [Vector2d 0 0; Vector2d 10 10] v = Return (assign i, None))
      ∧ (∀ c, partition !! c =
              match members_from assign 0
                      (AsSlice (mkDataset [Vector2d 1 1; Vector2d 9 9; Vector2d 0 1]
                                  vector2Creator)) c with
              | [] => None
              | v :: vs => Some (v :: vs)
              end)
      ∧ all_vectors partition
        ≡ₚ AsSlice (mkDataset [Vector2d 1 1; Vector2d 9 9; Vector2d 0 1] vector2Creator)
      ∧ sum_list (length <$> (snd <$> map_to_list partition))
        = length (AsSlice (mkDataset [Vector2d 1 1; Vector2d 9 9; Vector2d 0 1]
                             vector2Creator))
      ∧ (∀ c l, partition !! c = Some l →
           sublist l (AsSlice (mkDataset [Vector2d 1 1; Vector2d 9 9; Vector2d 0 1]
                                 vector2Creator))).
Proof.
  split; [discriminate|].
  apply (ClusteredPartition_is_partition (fun _ => [1; 0]) [Vector2d 0 0; Vector2d 10 10]
           (mkDataset [Vector2d 1 1; Vector2d 9 9; Vector2d 0 1] vector2Creator)).
  discriminate.
Defined.

(** ** The assignment step: [collectClusters] *)

Section AssignmentFacts.
Context {V : Type} `{Vector V}.

Lemma scan_snoc (record : V) (d0 : float) (l : list V) (x : V) :
  scan record d0 (l ++ [x]) = nearest_step record (scan record d0 l) (length l, x).
Proof.
  unfold scan. rewrite imap_app, foldl_app. simpl. by rewrite Nat.add_0_r.
Qed.

Lemma scan_invariant (record : V) (d0 : float) (l : list V) :
  ((scan record d0 l).1 = 0%nat ∧ (scan record d0 l).2 = d0
   ∨ ∃ cc, l !! (scan record d0 l).1 = Some cc
           ∧ (scan record d0 l).2 = DistanceTo record cc)
  ∧ (∀ j cj, l !! j = Some cj →
       (DistanceTo record cj <? (scan record d0 l).2)%float = false)
  ∧ (∀ j cj, (j < (scan record d0 l).1)%nat → l !! j = Some cj →
       (DistanceTo record cj <=? (scan record d0 l).2)%float = false).
Proof.
  induction l as [|x l IH] using rev_ind.
  { split; [by left|]. split; intros j cj; [|intros _]; by rewrite lookup_nil. }
  rewrite scan_snoc. destruct (scan record d0 l) as [c d].
  destruct IH as (Hat & Hmin & Hfirst). simpl in *.
  destruct (DistanceTo record x <? d)%float eqn:Hlt; simpl.
  - split; [right; exists x; split; [by apply list_lookup_middle|done]|].
    split.
    + intros j cj [Hj|[_ Hj]]%lookup_app_Some.
      * destruct (DistanceTo record cj <? DistanceTo record x)%float eqn:E; [|done].
        pose proof (F64Facts.ltb_trans _ _ _ E Hlt). specialize (Hmin j cj Hj). congruence.
      * apply list_lookup_singleton_Some in Hj as [_ <-]. apply F64Facts.ltb_irrefl.
    + intros j cj Hjlt [Hj|[Hge _]]%lookup_app_Some; [|lia].
      destruct (DistanceTo record cj <=? DistanceTo record x)%float eqn:E; [|done].
      pose proof (F64Facts.leb_ltb_trans _ _ _ E Hlt). specialize (Hmin j cj Hj). congruence.
  - split.
    { destruct Hat as [?|(cc & Hcc & ?)]; [by left|right].
      exists cc. split; [by apply lookup_app_l_Some|done]. }
    split.
    + intros j cj [Hj|[_ Hj]]%lookup_app_Some; [by eapply Hmin|].
      by apply list_lookup_singleton_Some in Hj as [_ <-].
    + intros j cj Hjlt [Hj|[Hge _]]%lookup_app_Some; [by eapply Hfirst|].
      destruct Hat as [[-> _]|(cc & Hcc%lookup_lt_Some & _)]; lia.
Qed.

Lemma nearest_cons (centroid0 : V) (rest : list V) (record : V) :
  nearest (centroid0 :: rest) record
  = Return (scan record (DistanceTo centroid0 record) (centroid0 :: rest)).1.
Proof. reflexivity. Qed.

Lemma nearest_index_cons (centroid0 : V) (rest : list V) (record : V) :
  nearest_index (centroid0 :: rest) record
  = (scan record (DistanceTo centroid0 record) (centroid0 :: rest)).1.
Proof. reflexivity. Qed.

Lemma nearest_index_lt (centroids : list V) (record : V) :
  centroids ≠ [] → (nearest_index centroids record < length centroids)%nat.
Proof.
  destruct centroids as [|c0 rest]; [done|]. intros _.
  rewrite nearest_index_cons.
  destruct (scan_invariant record (DistanceTo c0 record) (c0 :: rest))
    as ([[-> _]|(cc & Hcc%lookup_lt_Some & _)] & _); simpl in *; lia.
Qed.

Lemma nearest_Return (centroids : list V) (record : V) :
  centroids ≠ [] → nearest centroids record = Return (nearest_index centroids record).
Proof. destruct centroids; [done|]. intros _. by rewrite nearest_cons, nearest_index_cons. Qed.

Lemma assigned_to_cons (centroids : list V) (record : V) (records : list V) (i : nat) :
  assigned_to centroids (record :: records) i
  = if decide (nearest_index centroids record = i)
    then record :: assigned_to centroids records i
    else assigned_to centroids records i.
Proof. unfold assigned_to. by rewrite filter_cons. Qed.

(** The loop of [collectClusters]: bucket [i] collects the records assigned
    to [i], in order, and no other. *)
Lemma collectClusters_loop (centroids : list V) (records : list V) :
  centroids ≠ [] →
  ∀ buckets : list (bucketCollector V),
  length buckets = length centroids →
  ∃ buckets',
    foldlM (fun buckets record =>
              cluster ← nearest centroids record;
              bucket ← index buckets cluster;
              Return (<[cluster := Collect bucket record]> buckets))
           buckets records = Return buckets'
    ∧ length buckets' = length centroids
    ∧ ∀ i bucket, buckets !! i = Some bucket →
        buckets' !! i = Some (foldl Collect bucket (assigned_to centroids records i)).
Proof.
  intros Hne. induction records as [|record records IH]; intros buckets Hlen; simpl.
  { exists buckets. by repeat split. }
  rewrite nearest_Return by done. simpl.
  pose proof (nearest_index_lt centroids record Hne) as Hlt.
  destruct (lookup_lt_is_Some_2 buckets (nearest_index centroids record)) as [b0 Hb0];
    [lia|].
  rewrite (index_Some _ _ _ Hb0). simpl.
  destruct (IH (<[nearest_index centroids record := Collect b0 record]> buckets))
    as (buckets' & Hrun & Hlen' & Hget); [by rewrite length_insert|].
  exists buckets'. split; [done|]. split; [done|].
  intros i bucket Hi. rewrite assigned_to_cons. case_decide as Hc.
  - subst i. simplify_eq. apply Hget. apply list_lookup_insert_eq. lia.
  - apply Hget. by rewrite list_lookup_insert_ne.
Qed.

Lemma collectClusters_spec (dataset : Dataset V) (centroids : list V) :
  centroids ≠ [] →
  ∃ buckets,
    collectClusters dataset centroids = Return buckets
    ∧ length buckets = length centroids
    ∧ ∀ i, (i < length centroids)%nat →
        buckets !! i
        = Some (foldl Collect (mkBucket None 0) (assigned_to centroids (AsSlice dataset) i)).
Proof.
  intros Hne. unfold collectClusters.
  destruct (collectClusters_loop centroids (AsSlice dataset) Hne
              (replicate (length centroids) (mkBucket None 0)))
    as (buckets & Hrun & Hlen & Hget); [by rewrite length_replicate|].
  exists buckets. split; [done|]. split; [done|].
  intros i Hi. apply Hget. by apply lookup_replicate_2.
Qed.

(** Where the scan ends: on a centroid than which none is strictly closer
    to the record, and which every centroid of lower index fails to match. *)
Lemma nearest_index_least (centroids : list V) (centroid0 : V) (record : V) :
  centroids !! 0%nat = Some centroid0 →
  DistanceTo centroid0 record = DistanceTo record centroid0 →
  ∃ centroid,
    nearest centroids record = Return (nearest_index centroids record)
    ∧ centroids !! nearest_index centroids record = Some centroid
    ∧ (∀ j cj, centroids !! j = Some cj →
         (DistanceTo record cj <? DistanceTo record centroid)%float = false)
    ∧ (∀ j cj, (j < nearest_index centroids record)%nat → centroids !! j = Some cj →
         (DistanceTo record cj <=? DistanceTo record centroid)%float = false)
    ∧ ((∀ cj, cj ∈ centroids → F64.is_nan (DistanceTo record cj) = false) →
       (∀ j cj, centroids !! j = Some cj →
          (DistanceTo record centroid <=? DistanceTo record cj)%float = true)
       ∧ (∀ j cj, (j < nearest_index centroids record)%nat → centroids !! j = Some cj →
            (DistanceTo record centroid <? DistanceTo record cj)%float = true)).
Proof.
  intros H0 Hsym. destruct centroids as [|c0 rest]; [done|].
  simpl in H0. simplify_eq.
  rewrite nearest_cons, nearest_index_cons.
  destruct (scan_invariant record (DistanceTo centroid0 record) (centroid0 :: rest))
    as (Hat & Hmin & Hfirst).
  set (s := scan record (DistanceTo centroid0 record) (centroid0 :: rest)) in *.
  assert (∃ centroid, (centroid0 :: rest) !! s.1 = Some centroid
                      ∧ s.2 = DistanceTo record centroid) as (centroid & Hc & Hd).
  { destruct Hat as [[-> ->]|?]; [|done]. by exists centroid0. }
  rewrite Hd in Hmin, Hfirst.
  exists centroid. do 4 (split; [done|]).
  intros Hnan.
  assert (Hc' : F64.is_nan (DistanceTo record centroid) = false)
    by (by eapply Hnan, list_elem_of_lookup_2).
  split.
  - intros j cj Hj. apply F64Facts.ltb_leb_total; [done| |by eapply Hmin].
    by eapply Hnan, list_elem_of_lookup_2.
  - intros j cj Hjlt Hj. apply F64Facts.leb_ltb_total; [|done|by eapply Hfirst].
    by eapply Hnan, list_elem_of_lookup_2.
Qed.

End AssignmentFacts.



(** ** The update step: [bucketCollector] and [createNewCentroids] *)

Section UpdateFacts.
Context {V : Type} `{Vector V}.

(** A bucket that has collected [vs] holds their sum, added up from the
    left, and their number. *)
Lemma foldl_Collect (vs : list V) (bucket : bucketCollector V) :
  0 <= normalization bucket →
  normalization bucket + Z.of_nat (length vs) <= max_int →
  foldl Collect bucket vs
  = mkBucket
      (match vs, average bucket with
       | [], a => a
       | v :: vs', None => Some (foldl Add v vs')
       | _ :: _, Some sum => Some (foldl Add sum vs)
       end)
      (normalization bucket + Z.of_nat (length vs)).
Proof.
  revert bucket. induction vs as [|v vs IH]; intros [a n] Hn Hmax; simpl in *.
  { by rewrite Z.add_0_r. }
  assert (Hwrap : wrap_int (n + 1) = n + 1).
  { apply wrap_int_small. unfold max_int in *. lia. }
  unfold Collect at 2. simpl. rewrite Hwrap.
  rewrite IH; simpl; [|lia..].
  f_equal; [|lia].
  by destruct vs, a.
Qed.

Lemma Average_collected (v : V) (vs : list V) :
  Z.of_nat (length (v :: vs)) <= max_int →
  Average (foldl Collect (mkBucket None 0) (v :: vs))
  = Some (MulScalar (foldl Add v vs) (1 / F64.of_int (Z.of_nat (length (v :: vs))))).
Proof.
  intros Hmax. rewrite foldl_Collect; simpl normalization; [|lia..].
  unfold Average. simpl average. by rewrite Z.add_0_l.
Qed.

Lemma Average_untouched : Average (mkBucket (None : option V) 0) = None.
Proof. reflexivity. Qed.

Lemma createNewCentroids_loop (buckets : list (bucketCollector V)) (n : nat) :
  ∀ (a : nat) (centroids : list V) (deltas : list float),
  length deltas = length centroids →
  (a + n <= length buckets)%nat →
  (a + n <= length centroids)%nat →
  ∃ centroids' deltas',
    foldlM (fun '(centroids, deltas) i =>
              bucket ← index buckets i;
              match Average bucket with
              | Some newCentroid =>
                  old ← index centroids i;
                  Return (<[i := newCentroid]> centroids,
                          <[i := DistanceTo old newCentroid]> deltas)
              | None => Return (centroids, deltas)
              end)
           (centroids, deltas) (seq a n) = Return (centroids', deltas')
    ∧ length centroids' = length centroids
    ∧ length deltas' = length centroids
    ∧ ∀ i old d, centroids !! i = Some old → deltas !! i = Some d →
        centroids' !! i
        = Some (if decide (a <= i < a + n)%nat then updated_centroid buckets i old else old)
        ∧ deltas' !! i
          = Some (if decide (a <= i < a + n)%nat then recorded_delta buckets i old d else d).
Proof.
  induction n as [|n IH]; intros a centroids deltas Hlen Hb Hc; simpl.
  { exists centroids, deltas. repeat split; try done;
      case_decide; try lia; done. }
  destruct (lookup_lt_is_Some_2 buckets a) as [b Hb']; [lia|].
  destruct (lookup_lt_is_Some_2 centroids a) as [olda Holda]; [lia|].
  rewrite (index_Some _ _ _ Hb'). simpl.
  destruct (Average b) as [newCentroid|] eqn:Havg.
  - rewrite (index_Some _ _ _ Holda). simpl.
    destruct (IH (S a) (<[a := newCentroid]> centroids)
                (<[a := DistanceTo olda newCentroid]> deltas))
      as (centroids' & deltas' & Hrun & Hlc & Hld & Hget);
      [by rewrite !length_insert|lia|rewrite length_insert; lia|].
    rewrite length_insert in Hlc, Hld.
    exists centroids', deltas'. repeat split; try done.
    + destruct (decide (i = a)) as [->|Hne].
      * simplify_eq.
        destruct (Hget a newCentroid (DistanceTo olda newCentroid)) as [-> _];
          [apply list_lookup_insert_eq; lia..|].
        repeat case_decide; try lia.
        unfold updated_centroid. by rewrite Hb'; simpl; rewrite Havg.
      * destruct (Hget i old d) as [-> _]; [by rewrite list_lookup_insert_ne..|].
        repeat case_decide; try lia; done.
    + destruct (decide (i = a)) as [->|Hne].
      * simplify_eq.
        destruct (Hget a newCentroid (DistanceTo olda newCentroid)) as [_ ->];
          [apply list_lookup_insert_eq; lia..|].
        repeat case_decide; try lia.
        unfold recorded_delta. by rewrite Hb'; simpl; rewrite Havg.
      * destruct (Hget i old d) as [_ ->]; [by rewrite list_lookup_insert_ne..|].
        repeat case_decide; try lia; done.
  - destruct (IH (S a) centroids deltas) as (centroids' & deltas' & Hrun & Hlc & Hld & Hget);
      [done|lia..|].
    exists centroids', deltas'. repeat split; try done.
    + destruct (Hget i old d) as [-> _]; [done..|].
      repeat case_decide; try lia; try done.
      assert (i = a) as -> by lia. simplify_eq.
      unfold updated_centroid. by rewrite Hb'; simpl; rewrite Havg.
    + destruct (Hget i old d) as [_ ->]; [done..|].
      repeat case_decide; try lia; try done.
      assert (i = a) as -> by lia. simplify_eq.
      unfold recorded_delta. by rewrite Hb'; simpl; rewrite Havg.
Qed.

Lemma createNewCentroids_spec (centroids : list V) (buckets : list (bucketCollector V)) :
  length buckets = length centroids →
  ∃ centroids' deltas,
    createNewCentroids centroids buckets = Return (centroids', deltas)
    ∧ length centroids' = length centroids
    ∧ length deltas = length centroids
    ∧ ∀ i old, centroids !! i = Some old →
        centroids' !! i = Some (updated_centroid buckets i old)
        ∧ deltas !! i = Some (recorded_delta buckets i old 0).
Proof.
  intros Hlen. unfold createNewCentroids.
  destruct (createNewCentroids_loop buckets (length centroids) 0 centroids
              (replicate (length centroids) 0%float))
    as (centroids' & deltas & Hrun & Hlc & Hld & Hget);
    [by rewrite length_replicate|lia..|].
  exists centroids', deltas. do 3 (split; [done|]).
  intros i old Hi. pose proof (lookup_lt_Some _ _ _ Hi) as Hlt.
  destruct (Hget i old 0%float Hi) as [-> ->]; [by apply lookup_replicate_2|].
  by rewrite !decide_True by lia.
Qed.

End UpdateFacts.

(** C4: one refinement pass is [collectClusters] followed by
    [createNewCentroids].  For a bucket that received the records [v :: vs]
    the new centroid is their sum, added up from the left, multiplied by
    [1 / float64(count)], and its delta is the distance from the old centroid
    to the new one; for a bucket that received no record the centroid stays
    and its delta is 0.  The dataset is a slice, so its length fits an
    [int]. *)
Theorem refinement_pass_recomputes_centroids {V : Type} `{Vector V}
    (dataset : Dataset V) (centroids : list V) :
  centroids ≠ [] →
  Z.of_nat (length (AsSlice dataset)) <= max_int →
  ∃ buckets centroids' deltas,
    collectClusters dataset centroids = Return buckets
    ∧ createNewCentroids centroids buckets = Return (centroids', deltas)
    ∧ length centroids' = length centroids
    ∧ length deltas = length centroids
    ∧ ∀ i old, centroids !! i = Some old →
        match filter (fun record => nearest_index centroids record = i) (AsSlice dataset) with
        | [] => centroids' !! i = Some old ∧ deltas !! i = Some 0%float
        | v :: vs =>
            let mean :=
              MulScalar (foldl Add v vs) (1 / F64.of_int (Z.of_nat (length (v :: vs)))) in
            centroids' !! i = Some mean ∧ deltas !! i = Some (DistanceTo old mean)
        end.
Proof.
  intros Hne Hmax.
  destruct (collectClusters_spec dataset centroids Hne) as (buckets & Hcollect & Hlen & Hb).
  destruct (createNewCentroids_spec centroids buckets Hlen)
    as (centroids' & deltas & Hcreate & Hlc & Hld & Hget).
  exists buckets, centroids', deltas. do 4 (split; [done|]).
  intros i old Hi. destruct (Hget i old Hi) as [-> ->].
  unfold updated_centroid, recorded_delta.
  rewrite (Hb i) by (by eapply lookup_lt_Some). unfold assigned_to. simpl.
  pose proof (length_filter (fun record => nearest_index centroids record = i)
                (AsSlice dataset)) as Hle.
  destruct (filter _ (AsSlice dataset)) as [|v vs] eqn:E.
  - done.
  - rewrite Average_collected; [done|]. simpl in *. lia.
Qed.

(** The theorem at three centroids and three vectors. *)
Lemma refinement_pass_recomputes_centroids_witness :
  [Vector2d 0 0; Vector2d 10 10; Vector2d 5 50] ≠ []
  ∧ Z.of_nat (length (AsSlice (mkDataset [Vector2d 1 1; Vector2d 9 9; Vector2d 0 1]
                                 vector2Creator))) <= max_int
  ∧ ∃ buckets centroids' deltas,
      collectClusters (mkDataset [Vector2d 1 1; Vector2d 9 9; Vector2d 0 1] vector2Creator)
        [Vector2d 0 0; Vector2d 10 10; Vector2d 5 50] = Return buckets
      ∧ createNewCentroids [Vector2d 0 0; Vector2d 10 10; Vector2d 5 50] buckets
        = Return (centroids', deltas)
      ∧ length centroids' = length [Vector2d 0 0; Vector2d 10 10; Vector2d 5 50]
      ∧ length deltas = length [Vector2d 0 0; Vector2d 10 10; Vector2d 5 50]
      ∧ ∀ i old, [Vector2d 0 0; Vector2d 10 10; Vector2d 5 50] !! i = Some old →
          match filter (fun record =>
                          nearest_index [Vector2d 0 0; Vector2d 10 10; Vector2d 5 50] record = i)
                  (AsSlice (mkDataset [Vector2d 1 1; Vector2d 9 9; Vector2d 0 1]
                              vector2Creator)) with
          | [] => centroids' !! i = Some old ∧ deltas !! i = Some 0%float
          | v :: vs =>
              let mean :=
                MulScalar (foldl Add v vs) (1 / F64.of_int (Z.of_nat (length (v :: vs)))) in
              centroids' !! i = Some mean ∧ deltas !! i = Some (DistanceTo old mean)
          end.
Proof.
  split; [discriminate|]. split; [vm_compute; discriminate|].
  apply (refinement_pass_recomputes_centroids
           (mkDataset [Vector2d 1 1; Vector2d 9 9; Vector2d 0 1] vector2Creator)
           [Vector2d 0 0; Vector2d 10 10; Vector2d 5 50]).
  - discriminate.
  - vm_compute; discriminate.
Defined.

(** A pass on concrete data: (1, 1) and (0, 1) go to centroid 0, (9, 9) to
    centroid 1, and centroid 2 receives nothing. *)
Example refinement_pass_example :
  (buckets ← collectClusters
     (mkDataset [Vector2d 1 1; Vector2d 9 9; Vector2d 0 1] vector2Creator)
     [Vector2d 0 0; Vector2d 10 10; Vector2d 5 50];
   createNewCentroids [Vector2d 0 0; Vector2d 10 10; Vector2d 5 50] buckets)
  = Return ([Vector2d 0.5 1; Vector2d 9 9; Vector2d 5 50], [1.25; 2; 0]%float).
Proof. reflexivity. Qed.

(** ** A dataset of one vector *)

Section SinglePoint.
Context {V : Type} `{Vector V}.

Lemma refine_stop (fuel : nat) (dataset : Dataset V) (maxDelta : float) (centroids : list V) :
  (threshold <? maxDelta)%float = false →
  refine fuel dataset maxDelta centroids = Return centroids.
Proof. intros Hle. destruct fuel; simpl; by rewrite Hle. Qed.

Lemma refine_pass (fuel : nat) (dataset : Dataset V) (maxDelta : float) (centroids : list V) :
  (threshold <? maxDelta)%float = true →
  refine (S fuel) dataset maxDelta centroids
  = (buckets ← collectClusters dataset centroids;
     '(centroids', deltas) ← createNewCentroids centroids buckets;
     refine fuel dataset (largest_delta deltas) centroids').
Proof. intros Hgt. simpl. by rewrite Hgt. Qed.

Lemma nearest_single (c p : V) : nearest [c] p = Return 0%nat.
Proof.
  rewrite nearest_cons. unfold scan. simpl.
  by destruct (DistanceTo p c <? DistanceTo c p)%float.
Qed.

(** One pass over the dataset [[p]] from the centroid [c]. *)
Lemma single_point_pass (creator : VectorCreator V) (p c : V) :
  MulScalar p 1 = p →
  (buckets ← collectClusters (mkDataset [p] creator) [c]; createNewCentroids [c] buckets)
  = Return ([p], [DistanceTo c p]).
Proof.
  intros Hone. unfold collectClusters. cbn [AsSlice data foldlM].
  rewrite nearest_single. simpl.
  unfold createNewCentroids, Average. simpl.
  change (1 / F64.of_int (wrap_int (0 + 1)))%float with 1%float.
  by rewrite Hone.
Qed.

Lemma largest_delta_single (d : float) :
  largest_delta [d] = if (0 <? d)%float then d else 0%float.
Proof. reflexivity. Qed.

Lemma single_point_refine (creator : VectorCreator V) (p c : V) (fuel : nat) :
  MulScalar p 1 = p →
  (threshold <? DistanceTo p p)%float = false →
  refine (S (S fuel)) (mkDataset [p] creator) 1 [c] = Return [p].
Proof.
  intros Hone Hself.
  rewrite refine_pass by apply threshold_lt_one.
  pose proof (single_point_pass creator p c Hone) as Hpass.
  destruct (collectClusters (mkDataset [p] creator) [c]) as [buckets| |]; try done.
  cbn [mbind outcome_bind] in Hpass |- *. rewrite Hpass. cbn [mbind outcome_bind].
  destruct (threshold <? largest_delta [DistanceTo c p])%float eqn:Hfar;
    [|by apply refine_stop].
  rewrite refine_pass by done.
  pose proof (single_point_pass creator p p Hone) as Hpass'.
  destruct (collectClusters (mkDataset [p] creator) [p]) as [buckets'| |]; try done.
  cbn [mbind outcome_bind] in Hpass' |- *. rewrite Hpass'. cbn [mbind outcome_bind].
  apply refine_stop. rewrite largest_delta_single.
  destruct (0 <? DistanceTo p p)%float; [done|apply threshold_lt_zero].
Qed.

End SinglePoint.

(** [Vector2] satisfies what the single-point run needs of a vector. *)
Lemma Vector2_MulScalar_one (p : Vector2) : MulScalar p 1 = p.
Proof.
  destruct p as [x y]. simpl. unfold Vector2_MulScalar. simpl.
  by rewrite !F64Facts.mul_one_r.
Qed.

Lemma Vector2_DistanceTo_self (p : Vector2) :
  (threshold <? DistanceTo p p)%float = false.
Proof.
  destruct p as [x y]. simpl.
  unfold Vector2_DistanceTo, Vector2_Length, Vector2_TransposedMul, Vector2_Subtract. simpl.
  by destruct (F64Facts.sub_diag x) as [-> | ->], (F64Facts.sub_diag y) as [-> | ->].
Qed.

Lemma Vector2_DistanceTo_sym (a b : Vector2) : DistanceTo a b = DistanceTo b a.
Proof.
  destruct a as [ax ay], b as [bx by']. simpl.
  unfold Vector2_DistanceTo, Vector2_Length, Vector2_TransposedMul, Vector2_Subtract. simpl.
  by rewrite (F64Facts.square_sub_swap ax bx), (F64Facts.square_sub_swap ay by').
Qed.

(** For [Vector2] neither run needs an assumption on the vectors. *)
Corollary Vector2_single_point (creator : VectorCreator Vector2) (p c : Vector2) (fuel : nat) :
  KMeansWithCentroids (S (S fuel)) (mkDataset [p] creator) [c] = Return [p].
Proof.
  unfold KMeansWithCentroids. rewrite IsEmpty_cons.
  apply single_point_refine; [apply Vector2_MulScalar_one|apply Vector2_DistanceTo_self].
Qed.

Corollary Vector2_nearest_index_least (centroid0 : Vector2) (rest : list Vector2)
    (record : Vector2) :
  ∃ centroid,
    (centroid0 :: rest) !! nearest_index (centroid0 :: rest) record = Some centroid
    ∧ (∀ j cj, (centroid0 :: rest) !! j = Some cj →
         (DistanceTo record cj <? DistanceTo record centroid)%float = false)
    ∧ (∀ j cj, (j < nearest_index (centroid0 :: rest) record)%nat →
         (centroid0 :: rest) !! j = Some cj →
         (DistanceTo record cj <=? DistanceTo record centroid)%float = false).
Proof.
  destruct (nearest_index_least (centroid0 :: rest) centroid0 record eq_refl
              (Vector2_DistanceTo_sym _ _)) as (centroid & _ & Hc & Hmin & Hfirst & _).
  by exists centroid.
Qed.

(** C8: on a dataset of the one vector [p], started from one centroid [c],
    the first pass already makes [p] the centroid, and K-Means returns the
    clusterer whose only centroid is [p].  The loop ends after this pass when
    the movement from [c] to [p] is within the threshold, and after one more
    pass, which moves nothing, otherwise; two units of fuel are enough.  The
    same holds when the centroid comes from a sampler.  What is needed of the
    vector is that scaling it by 1 gives it back and that its distance to
    itself does not exceed the threshold. *)
Theorem KMeans_single_point {V : Type} `{Vector V} (creator : VectorCreator V) (p : V) :
  MulScalar p 1 = p →
  (threshold <? DistanceTo p p)%float = false →
  let dataset := mkDataset [p] creator in
  (∀ c, (buckets ← collectClusters dataset [c]; createNewCentroids [c] buckets)
        = Return ([p], [DistanceTo c p]))
  ∧ (∀ c fuel, KMeansWithCentroids (S (S fuel)) dataset [c] = Return [p])
  ∧ (∀ sampler r fuel,
       KMeansWithSampler (S (S fuel)) dataset 1 sampler r
       = ('(c, r') ← sampler 0 (Length (Max dataset)) r; Return ([p], r')))
  ∧ (∀ r fuel sfuel,
       KMeans (S (S fuel)) sfuel dataset 1 r
       = ('(c, r') ← uniformSampler sfuel (Creator p) 0 (Length (Max dataset)) r;
          Return ([p], r'))).
Proof.
  intros Hone Hself dataset.
  assert (Hc : ∀ c fuel, KMeansWithCentroids (S (S fuel)) dataset [c] = Return [p]).
  { intros c fuel. subst dataset. unfold KMeansWithCentroids. rewrite IsEmpty_cons.
    by apply single_point_refine. }
  assert (Hs : ∀ sampler r fuel,
             KMeansWithSampler (S (S fuel)) dataset 1 sampler r
             = ('(c, r') ← sampler 0 (Length (Max dataset)) r; Return ([p], r'))).
  { intros sampler r fuel. unfold KMeansWithSampler, dataset in *. rewrite IsEmpty_cons.
    unfold makeCentroids. simpl. change (Z.of_nat 0) with 0.
    destruct (sampler 0 _ r) as [[c r']| |]; cbn [mbind outcome_bind]; [|done..].
    by rewrite Hc. }
  split; [intros c; by apply single_point_pass|]. split; [done|]. split; [done|].
  intros r fuel sfuel. unfold KMeans, dataset in *. rewrite IsEmpty_cons. simpl. apply Hs.
Qed.

(** The theorem at the vector (3, 4), started from (0, 0). *)
Lemma KMeans_single_point_witness :
  MulScalar (Vector2d 3 4) 1 = Vector2d 3 4
  ∧ (threshold <? DistanceTo (Vector2d 3 4) (Vector2d 3 4))%float = false
  ∧ KMeansWithCentroids 2 (mkDataset [Vector2d 3 4] vector2Creator) [Vector2d 0 0]
    = Return [Vector2d 3 4].
Proof.
  assert (Hone : MulScalar (Vector2d 3 4) 1 = Vector2d 3 4) by reflexivity.
  assert (Hself : (threshold <? DistanceTo (Vector2d 3 4) (Vector2d 3 4))%float = false)
    by reflexivity.
  split; [exact Hone|]. split; [exact Hself|].
  exact (proj1 (proj2 (KMeans_single_point vector2Creator (Vector2d 3 4) Hone Hself))
           (Vector2d 0 0) 0%nat).
Defined.

(** Started from (0, 0), the dataset [(3, 4)] needs the second pass: the
    first one moves the centroid by 25. *)
Example single_point_second_pass :
  KMeansWithCentroids 1 (mkDataset [Vector2d 3 4] vector2Creator) [Vector2d 0 0] = OutOfFuel
  ∧ KMeansWithCentroids 1 (mkDataset [Vector2d 3 4] vector2Creator) [Vector2d 3 4.25]
    = Return [Vector2d 3 4].
Proof. split; reflexivity. Qed.

(** C10: with a dataset that holds a vector and no centroid, the first pass
    panics in the assignment step, which reads [centroids[0]]: index 0 is out
    of range for length 0.  So do [KMeansWithSampler] and [KMeans] with
    [k = 0], which sample no centroid.  Nothing is returned, neither an empty
    clusterer nor an error.  With a first centroid present the assignment
    step returns. *)
Theorem KMeans_without_centroids_panics {V : Type} `{Vector V}
    (v : V) (vs : list V) (creator : VectorCreator V)
    (fuel sfuel : nat) (sampler : Sampler V) (r : Rand) :
  let dataset := mkDataset (v :: vs) creator in
  collectClusters dataset [] = Panics (IndexOutOfRange 0 0)
  ∧ KMeansWithCentroids (S fuel) dataset [] = Panics (IndexOutOfRange 0 0)
  ∧ KMeansWithSampler (S fuel) dataset 0 sampler r = Panics (IndexOutOfRange 0 0)
  ∧ KMeans (S fuel) sfuel dataset 0 r = Panics (IndexOutOfRange 0 0)
  ∧ (∀ centroid0 rest, ∃ buckets, collectClusters dataset (centroid0 :: rest) = Return buckets).
Proof.
  intros dataset. do 4 (split; [reflexivity|]).
  intros centroid0 rest.
  destruct (collectClusters_spec dataset (centroid0 :: rest)) as (buckets & Hrun & _); [done|].
  by exists buckets.
Qed.

(** * Further properties of the package *)

(** ** [Clusters], [Centroids] and the answers of [FindCluster] *)

Section IdentifierFacts.
Context {V : Type} `{Vector V}.

Lemma elem_of_Clusters (clusterer : list V) (c : Z) :
  c ∈ Clusters clusterer ↔ 0 <= c < Z.of_nat (length clusterer).
Proof.
  unfold Clusters. rewrite list_elem_of_fmap. split.
  - intros (i & -> & Hi%elem_of_seq). lia.
  - intros Hc. exists (Z.to_nat c). split; [lia|]. apply elem_of_seq. lia.
Qed.

Lemma Centroids_is_Some (clusterer : list V) (k : Z) :
  is_Some (Centroids clusterer !! k) ↔ k ∈ Clusters clusterer.
Proof.
  rewrite Centroids_lookup, elem_of_Clusters. case_decide as Hk.
  - split; [done|]. intros _. apply lookup_lt_is_Some. lia.
  - split; [by intros [? ?]|done].
Qed.

Lemma Centroids_from_size (clusterer : list V) :
  ∀ (i : Z) (mapping : gmap Z V),
  (∀ k, i <= k → mapping !! k = None) →
  size (Centroids_from i clusterer mapping) = (length clusterer + size mapping)%nat.
Proof.
  induction clusterer as [|c rest IH]; intros i mapping Hfree; simpl; [done|].
  rewrite IH.
  - rewrite map_size_insert_None by (apply Hfree; lia). lia.
  - intros k Hk. rewrite lookup_insert_ne by lia. apply Hfree. lia.
Qed.

(** The scan of [FindCluster] ends on an entry of the map. *)
Lemma FindCluster_in_Clusters (order : list Z) (centroid0 : V) (rest : list V) (v : V) :
  ∃ cluster,
    FindCluster order (centroid0 :: rest) v = Return (cluster, None)
    ∧ cluster ∈ Clusters (centroid0 :: rest).
Proof.
  rewrite FindCluster_cons.
  pose proof (FindCluster_scan v (range_map order (Centroids (centroid0 :: rest)))
                (0, centroid0)) as [Hres _].
  set (res := foldl _ _ _) in *. exists res.1. split; [done|].
  apply Centroids_is_Some.
  destruct Hres as [->|[Hin _]]; [by rewrite Centroids_lookup_0|].
  destruct res as [k c]. apply elem_of_range_map in Hin as [_ Hk]. simpl. by eexists.
Qed.

End IdentifierFacts.

(** X1: [Clusters] returns as many identifiers as the clusterer has
    centroids: the numbers 0, 1, ... in ascending order, each once. *)
Theorem Clusters_ascending_identifiers {V : Type} `{Vector V} (clusterer : list V) :
  length (Clusters clusterer) = length clusterer
  ∧ (∀ i, (i < length clusterer)%nat → Clusters clusterer !! i = Some (Z.of_nat i))
  ∧ NoDup (Clusters clusterer)
  ∧ (∀ c, c ∈ Clusters clusterer ↔ 0 <= c < Z.of_nat (length clusterer)).
Proof.
  split; [apply Clusters_length|]. split; [apply Clusters_lookup|].
  split; [|apply elem_of_Clusters].
  unfold Clusters. apply NoDup_fmap_2; [|apply NoDup_seq].
  intros i j Hij. lia.
Qed.

(** X2: the map that [Centroids] builds has one entry per centroid; its keys
    are the identifiers [Clusters] returns, and looking up identifier [i]
    gives back the centroid at position [i]. *)
Theorem Centroids_maps_identifiers {V : Type} `{Vector V} (clusterer : list V) :
  size (Centroids clusterer) = length clusterer
  ∧ (∀ i centroid, clusterer !! i = Some centroid →
       Centroids clusterer !! Z.of_nat i = Some centroid)
  ∧ (∀ k centroid, Centroids clusterer !! k = Some centroid →
       0 <= k ∧ clusterer !! Z.to_nat k = Some centroid)
  ∧ (∀ k, is_Some (Centroids clusterer !! k) ↔ k ∈ Clusters clusterer).
Proof.
  split; [|split; [|split]].
  - unfold Centroids. rewrite Centroids_from_size; [by rewrite map_size_empty; lia|].
    intros k _. apply lookup_empty.
  - intros i centroid Hi. pose proof (lookup_lt_Some _ _ _ Hi).
    rewrite Centroids_lookup, decide_True by lia. by rewrite Nat2Z.id.
  - intros k centroid. rewrite Centroids_lookup. case_decide; [|done].
    intros Hk. split; [lia|done].
  - apply Centroids_is_Some.
Qed.

(** X3: on a clusterer that holds a centroid, [FindCluster] returns no error
    and an identifier that [Clusters] lists, in whatever order the map is
    visited. *)
Theorem FindCluster_returns_identifier {V : Type} `{Vector V}
    (order : list Z) (centroid0 : V) (rest : list V) (v : V) :
  ∃ cluster,
    FindCluster order (centroid0 :: rest) v = Return (cluster, None)
    ∧ cluster ∈ Clusters (centroid0 :: rest)
    ∧ is_Some (Centroids (centroid0 :: rest) !! cluster).
Proof.
  destruct (FindCluster_in_Clusters order centroid0 rest v) as (cluster & Hrun & Hin).
  exists cluster. split; [done|]. split; [done|]. by apply Centroids_is_Some.
Qed.

Section VisitFacts.
Context {V : Type} `{Vector V}.

(** An order that lists each identifier once is one the map can be visited
    in. *)
Lemma visits_identifiers (order : list Z) (clusterer : list V) :
  NoDup order →
  (∀ k, k ∈ order ↔ 0 <= k < Z.of_nat (length clusterer)) →
  visits_each_key_once order (Centroids clusterer).
Proof.
  intros Hnd Hk. split; [done|]. intros k.
  by rewrite Hk, Centroids_is_Some, elem_of_Clusters.
Qed.

(** A centroid strictly closer than every other one is where the scan of
    [FindCluster] ends. *)
Lemma FindCluster_strict_minimum (order : list Z) (clusterer : list V) (v : V)
    (m : nat) (cm : V) :
  visits_each_key_once order (Centroids clusterer) →
  clusterer !! m = Some cm →
  (∀ j cj, clusterer !! j = Some cj → j ≠ m →
     (DistanceTo cm v <? DistanceTo cj v)%float = true) →
  FindCluster order clusterer v = Return (Z.of_nat m, None).
Proof.
  intros [_ Hall] Hm Hstrict. destruct clusterer as [|c0 rest]; [done|].
  rewrite FindCluster_cons.
  pose proof (FindCluster_scan v (range_map order (Centroids (c0 :: rest))) (0, c0))
    as [Hres Hmin].
  set (res := foldl _ _ _) in *. simpl in Hmin.
  assert (Hin : Centroids (c0 :: rest) !! res.1 = Some res.2).
  { destruct Hres as [->|[Hin _]]; [apply Centroids_lookup_0|].
    destruct res. by apply elem_of_range_map in Hin as [_ ?]. }
  assert (Hcm : Centroids (c0 :: rest) !! Z.of_nat m = Some cm).
  { pose proof (lookup_lt_Some _ _ _ Hm).
    rewrite Centroids_lookup, decide_True by lia. by rewrite Nat2Z.id. }
  rewrite Centroids_lookup in Hin. case_decide as Hk; [|done].
  destruct (decide (Z.to_nat res.1 = m)) as [Heq|Hne].
  - do 2 f_equal. lia.
  - specialize (Hstrict _ _ Hin Hne).
    assert (Hnot : (DistanceTo cm v <? DistanceTo res.2 v)%float = false).
    { apply (Hmin (Z.of_nat m, cm)), elem_of_range_map. split; [|done].
      apply Hall. by eexists. }
    congruence.
Qed.

Lemma ClusteredPartition_loop_keys (orders : nat -> list Z) (centroid0 : V) (rest : list V)
    (vecs : list V) :
  ∀ (call : nat) (partition : gmap Z (list V)),
  (∀ c l, partition !! c = Some l → c ∈ Clusters (centroid0 :: rest) ∧ l ≠ []) →
  ∃ partition',
    ClusteredPartition_loop orders (centroid0 :: rest) call vecs partition
    = Return (Some partition', None)
    ∧ ∀ c l, partition' !! c = Some l → c ∈ Clusters (centroid0 :: rest) ∧ l ≠ [].
Proof.
  induction vecs as [|vec vecs IH]; intros call partition Hkeys; simpl.
  { by exists partition. }
  destruct (FindCluster_in_Clusters (orders call) centroid0 rest vec)
    as (cluster & -> & Hcluster).
  simpl. apply IH. intros c l.
  destruct (decide (cluster = c)) as [->|Hne].
  - rewrite lookup_insert_eq. intros [= <-]. split; [done|].
    intros [_ ?]%app_eq_nil. done.
  - rewrite lookup_insert_ne by done. apply Hkeys.
Qed.

End VisitFacts.

(** [FindCluster_no_closer] at three centroids of which the last two are
    equally near, the map being visited from its last key to its first. *)
Lemma FindCluster_no_closer_witness :
  [Vector2d 3 0; Vector2d 1 0; Vector2d (-1) 0] ≠ []
  ∧ visits_each_key_once [2; 1; 0] (Centroids [Vector2d 3 0; Vector2d 1 0; Vector2d (-1) 0])
  ∧ ∃ cluster centroid,
      FindCluster [2; 1; 0] [Vector2d 3 0; Vector2d 1 0; Vector2d (-1) 0] (Vector2d 0 0)
      = Return (cluster, None)
      ∧ Centroids [Vector2d 3 0; Vector2d 1 0; Vector2d (-1) 0] !! cluster = Some centroid.
Proof.
  assert (Hvisit : visits_each_key_once [2; 1; 0]
                     (Centroids [Vector2d 3 0; Vector2d 1 0; Vector2d (-1) 0])).
  { apply visits_identifiers; [compute_done|].
    intros k. rewrite !elem_of_cons, elem_of_nil. simpl. lia. }
  split; [discriminate|]. split; [exact Hvisit|].
  destruct (FindCluster_no_closer [2; 1; 0] [Vector2d 3 0; Vector2d 1 0; Vector2d (-1) 0]
              (Vector2d 0 0)) as (cluster & centroid & Hrun & Hc & _); [discriminate|exact Hvisit|].
  by exists cluster, centroid.
Defined.

(** X5: when one centroid is strictly closer to a vector than every other
    one, [FindCluster] returns its identifier in whatever order the map is
    visited, and the assignment step of K-Means picks the same index.  The
    distance between the vector and a centroid is assumed not to depend on
    which of the two is the receiver. *)
Theorem FindCluster_agrees_with_assignment {V : Type} `{Vector V}
    (order : list Z) (clusterer : list V) (v : V) (m : nat) (cm : V) :
  visits_each_key_once order (Centroids clusterer) →
  (∀ c, c ∈ clusterer → DistanceTo c v = DistanceTo v c) →
  clusterer !! m = Some cm →
  (∀ j cj, clusterer !! j = Some cj → j ≠ m →
     (DistanceTo v cm <? DistanceTo v cj)%float = true) →
  FindCluster order clusterer v = Return (Z.of_nat m, None)
  ∧ nearest clusterer v = Return m.
Proof.
  intros Hvisit Hsym Hm Hstrict. split.
  - apply (FindCluster_strict_minimum order clusterer v m cm Hvisit Hm).
    intros j cj Hj Hne.
    rewrite (Hsym cm) by (by apply (list_elem_of_lookup_2 _ m)).
    rewrite (Hsym cj) by (by apply (list_elem_of_lookup_2 _ j)). by apply (Hstrict j).
  - destruct clusterer as [|c0 rest]; [done|].
    destruct (nearest_index_least (c0 :: rest) c0 v eq_refl)
      as (centroid & -> & Hc & Hmin & _); [apply Hsym; by left|].
    f_equal. destruct (decide (nearest_index (c0 :: rest) v = m)) as [|Hne]; [done|].
    specialize (Hstrict _ _ Hc Hne). by rewrite (Hmin m cm Hm) in Hstrict.
Qed.

(** The theorem at three centroids of which the second is the nearest. *)
Lemma FindCluster_agrees_with_assignment_witness :
  visits_each_key_once [2; 0; 1] (Centroids [Vector2d 3 0; Vector2d 1 0; Vector2d (-2) 0])
  ∧ FindCluster [2; 0; 1] [Vector2d 3 0; Vector2d 1 0; Vector2d (-2) 0] (Vector2d 0 0)
    = Return (1, None)
  ∧ nearest [Vector2d 3 0; Vector2d 1 0; Vector2d (-2) 0] (Vector2d 0 0) = Return 1%nat.
Proof.
  assert (Hvisit : visits_each_key_once [2; 0; 1]
                     (Centroids [Vector2d 3 0; Vector2d 1 0; Vector2d (-2) 0])).
  { apply visits_identifiers; [compute_done|].
    intros k. rewrite !elem_of_cons, elem_of_nil. simpl. lia. }
  split; [exact Hvisit|].
  apply (FindCluster_agrees_with_assignment [2; 0; 1]
           [Vector2d 3 0; Vector2d 1 0; Vector2d (-2) 0] (Vector2d 0 0) 1 (Vector2d 1 0) Hvisit).
  - intros c Hc. repeat (apply elem_of_cons in Hc as [->|Hc]; [reflexivity|]).
    by apply elem_of_nil in Hc.
  - reflexivity.
  - intros j cj Hj Hne. destruct j as [|[|[|j]]]; simpl in Hj; simplify_eq; reflexivity.
Defined.

(** X6: for a clusterer that holds a centroid, every key of the partition
    that [ClusteredPartition] returns is an identifier that [Clusters] lists,
    and no key has an empty list. *)
Theorem ClusteredPartition_keys_are_identifiers {V : Type} `{Vector V}
    (orders : nat -> list Z) (centroid0 : V) (rest : list V) (dataset : Dataset V) :
  ∃ partition,
    ClusteredPartition orders (centroid0 :: rest) dataset = Return (Some partition, None)
    ∧ ∀ c l, partition !! c = Some l → c ∈ Clusters (centroid0 :: rest) ∧ l ≠ [].
Proof.
  apply ClusteredPartition_loop_keys. intros c l. by rewrite lookup_empty.
Qed.

(** ** [Max] *)

Section MaxFacts.
Context {V : Type} `{Vector V}.

Lemma Max_unfold (dataset : Dataset V) :
  Max dataset
  = (foldl Max_step (Null (creator dataset), Length (Null (creator dataset)))
       (AsSlice dataset)).1.
Proof.
  unfold Max. f_equal.
  generalize (Null (creator dataset), Length (Null (creator dataset))).
  induction (AsSlice dataset) as [|vec vecs IH]; intros best; simpl; [done|].
  rewrite IH. by destruct best.
Qed.

Lemma Max_invariant (null : V) (l : list V) :
  let res := foldl Max_step (null, Length null) l in
  res.2 = Length res.1
  ∧ (res.1 = null
     ∨ ∃ i, l !! i = Some res.1
            ∧ (Length null <? Length res.1)%float = true
            ∧ ∀ j v, (j < i)%nat → l !! j = Some v →
                (Length res.1 <=? Length v)%float = false)
  ∧ ∀ v, v ∈ l → (Length res.1 <? Length v)%float = false.
Proof.
  induction l as [|x l IH] using rev_ind; simpl.
  { split; [done|]. split; [by left|]. intros v Hv. by apply elem_of_nil in Hv. }
  rewrite foldl_app. simpl.
  destruct (foldl Max_step (null, Length null) l) as [res len].
  destruct IH as (Hlen & Hfirst & Hmax). simpl in *. subst len.
  destruct (Length res <? Length x)%float eqn:Hlt; simpl.
  - split; [done|]. split.
    + right. exists (length l). split; [by apply list_lookup_middle|]. split.
      * destruct Hfirst as [->|(i & _ & Hnull & _)]; [done|].
        by eapply F64Facts.ltb_trans.
      * intros j v Hj [Hv|[Hge _]]%lookup_app_Some; [|lia].
        destruct (Length x <=? Length v)%float eqn:E; [|done].
        pose proof (F64Facts.ltb_leb_trans _ _ _ Hlt E) as Hcontra.
        rewrite Hmax in Hcontra; [done|]. by eapply list_elem_of_lookup_2.
    + intros v [Hv| ->%list_elem_of_singleton]%elem_of_app; [|apply F64Facts.ltb_irrefl].
      destruct (Length x <? Length v)%float eqn:E; [|done].
      pose proof (F64Facts.ltb_trans _ _ _ Hlt E) as Hcontra.
      by rewrite Hmax in Hcontra.
  - split; [done|]. split.
    + destruct Hfirst as [->|(i & Hi & Hnull & Hties)]; [by left|right].
      exists i. split; [by apply lookup_app_l_Some|]. split; [done|].
      intros j v Hj [Hv|[Hge _]]%lookup_app_Some; [by eapply Hties|].
      apply lookup_lt_Some in Hi. lia.
    + intros v [Hv| ->%list_elem_of_singleton]%elem_of_app; [by apply Hmax|done].
Qed.

End MaxFacts.

(** X7: [Max] returns the null vector of the dataset's creator or a vector
    of the dataset strictly longer than that null vector; no vector of the
    dataset is strictly longer than the result, and of several longest
    vectors the result is the first.  For an empty dataset the result is the
    null vector. *)
Theorem Max_is_first_longest {V : Type} `{Vector V} (dataset : Dataset V) :
  (Max dataset = Null (creator dataset)
   ∨ ∃ i, AsSlice dataset !! i = Some (Max dataset)
          ∧ (Length (Null (creator dataset)) <? Length (Max dataset))%float = true
          ∧ ∀ j v, (j < i)%nat → AsSlice dataset !! j = Some v →
              (Length (Max dataset) <=? Length v)%float = false)
  ∧ (∀ v, v ∈ AsSlice dataset → (Length (Max dataset) <? Length v)%float = false)
  ∧ (AsSlice dataset = [] → Max dataset = Null (creator dataset)).
Proof.
  rewrite Max_unfold.
  destruct (Max_invariant (Null (creator dataset)) (AsSlice dataset)) as (_ & Hfirst & Hmax).
  split; [done|]. split; [done|]. by intros ->.
Qed.

(** ** The arithmetic of [Vector2] *)

(** X8: on [Vector2], addition is commutative, the inner product is
    symmetric, and scaling by 1 gives the vector back. *)
Theorem Vector2_arithmetic_laws (a b : Vector2) :
  Add a b = Add b a
  ∧ TransposedMul a b = TransposedMul b a
  ∧ MulScalar a 1 = a.
Proof.
  split; [|split; [|apply Vector2_MulScalar_one]].
  - destruct a as [ax ay], b as [bx by']. simpl. unfold Vector2_Add. simpl.
    by rewrite (F64Facts.add_comm ax bx), (F64Facts.add_comm ay by').
  - destruct a as [ax ay], b as [bx by']. simpl. unfold Vector2_TransposedMul. simpl.
    by rewrite (F64Facts.mul_comm ax bx), (F64Facts.mul_comm ay by').
Qed.


(** ** Sampling the initial centroids *)

Section SamplingFacts.
Context {V : Type} `{Vector V}.

Lemma uniformSampler_loop_accepts (fuel : nat) (creator : VectorCreator V) :
  ∀ (vec : V) (r : Rand) (accepted : V) (r' : Rand),
  uniformSampler_loop fuel creator vec r = Return (accepted, r') →
  (Length accepted =? 0)%float = false ∧ (1 <? Length accepted)%float = false.
Proof.
  induction fuel as [|fuel IH]; intros vec r accepted r'; simpl.
  - destruct (Length vec =? 0)%float eqn:E0; simpl; [done|].
    destruct (1 <? Length vec)%float eqn:E1; [done|]. by intros [= <- <-].
  - destruct (Length vec =? 0)%float eqn:E0; simpl.
    { destruct (New creator _ r) as [vec' r1]. apply IH. }
    destruct (1 <? Length vec)%float eqn:E1.
    { destruct (New creator _ r) as [vec' r1]. apply IH. }
    by intros [= <- <-].
Qed.

(** The loop of [makeCentroids] appends one centroid per index. *)
Lemma makeCentroids_loop_length (sampler : Sampler V) (maxLen : float) (n : nat) :
  ∀ (a : nat) (centroids : list V) (r : Rand) (centroids' : list V) (r' : Rand),
  foldlM (fun '(centroids, r) i =>
            '(vec, r') ← sampler (Z.of_nat i) maxLen r;
            Return (centroids ++ [vec], r'))
         (centroids, r) (seq a n) = Return (centroids', r') →
  length centroids' = (length centroids + n)%nat.
Proof.
  induction n as [|n IH]; intros a centroids r centroids' r'; simpl.
  { intros [= <- <-]. lia. }
  destruct (sampler (Z.of_nat a) maxLen r) as [[vec r1]| |]; simpl; [|done..].
  intros Hrun%IH. rewrite length_app in Hrun. simpl in Hrun. lia.
Qed.


Lemma makeCentroids_loop_length_k (k : Z) (dataset : Dataset V) (sampler : Sampler V)
    (r : Rand) (centroids : list V) (r' : Rand) :
  makeCentroids k dataset sampler r = Return (centroids, r') →
  0 <= k ∧ Z.of_nat (length centroids) = k.
Proof.
  unfold makeCentroids. destruct (k <? 0) eqn:Hk; [done|]. apply Z.ltb_ge in Hk.
  intros Hrun%makeCentroids_loop_length. simpl in Hrun. lia.
Qed.

End SamplingFacts.

(** X10: when the uniform sampler returns, its vector is an accepted vector
    scaled by the bound: the [Length] of the accepted vector is not 0 and
    does not exceed 1. *)
Theorem uniformSampler_returns_scaled_unit_vector {V : Type} `{Vector V}
    (fuel : nat) (creator : VectorCreator V) (k : Z) (max : float) (r : Rand)
    (v : V) (r' : Rand) :
  uniformSampler fuel creator k max r = Return (v, r') →
  ∃ vec, v = MulScalar vec max
         ∧ (Length vec =? 0)%float = false
         ∧ (1 <? Length vec)%float = false.
Proof.
  unfold uniformSampler.
  destruct (uniformSampler_loop fuel creator (Null creator) r) as [[vec r1]| |] eqn:Hloop;
    simpl; [|done..].
  intros [= <- <-]. exists vec. split; [done|].
  by eapply uniformSampler_loop_accepts.
Qed.

(** The theorem for [Vector2], the draws being 0.5 and 0.25 in turn: the
    first attempt, (0.5, 0.25), is accepted. *)
Lemma uniformSampler_returns_scaled_unit_vector_witness :
  uniformSampler 1 vector2Creator 0 2%float
    {| draws := fun n => if Nat.even n then 0.5%float else 0.25%float; cursor := 0 |}
  = Return (Vector2d 1 0.5,
            {| draws := fun n => if Nat.even n then 0.5%float else 0.25%float; cursor := 2 |})
  ∧ ∃ vec, Vector2d 1 0.5 = MulScalar vec 2
           ∧ (Length vec =? 0)%float = false
           ∧ (1 <? Length vec)%float = false.
Proof.
  assert (Hrun : uniformSampler 1 vector2Creator 0 2%float
            {| draws := fun n => if Nat.even n then 0.5%float else 0.25%float; cursor := 0 |}
          = Return (Vector2d 1 0.5,
              {| draws := fun n => if Nat.even n then 0.5%float else 0.25%float;
                 cursor := 2 |})) by reflexivity.
  split; [exact Hrun|].
  exact (uniformSampler_returns_scaled_unit_vector 1 vector2Creator 0 2%float _ _ _ Hrun).
Defined.

(** X11: [makeCentroids] panics for a negative [k]; when it returns, it
    returns exactly [k] centroids. *)
Theorem makeCentroids_returns_k_centroids {V : Type} `{Vector V}
    (k : Z) (dataset : Dataset V) (sampler : Sampler V) (r : Rand) :
  (k < 0 → makeCentroids k dataset sampler r = Panics MakeSliceLenOutOfRange)
  ∧ ∀ centroids r', makeCentroids k dataset sampler r = Return (centroids, r') →
      0 <= k ∧ Z.of_nat (length centroids) = k.
Proof.
  unfold makeCentroids. split.
  - intros Hk. by rewrite (proj2 (Z.ltb_lt k 0) Hk).
  - intros centroids r'. destruct (k <? 0) eqn:Hk; [done|]. apply Z.ltb_ge in Hk.
    intros Hrun%makeCentroids_loop_length. simpl in Hrun. lia.
Qed.

(** The theorem at [k = 3] with a sampler that returns (k, max). *)
Lemma makeCentroids_returns_k_centroids_witness :
  ∃ centroids r',
    makeCentroids 3 (mkDataset [Vector2d 3 4] vector2Creator)
      (fun k max r => Return (Vector2d (F64.of_int k) max, r))
      {| draws := fun _ => 0%float; cursor := 0 |} = Return (centroids, r')
    ∧ 0 <= 3 ∧ Z.of_nat (length centroids) = 3.
Proof.
  eexists _, _. split; [reflexivity|].
  eapply (proj2 (makeCentroids_returns_k_centroids 3 (mkDataset [Vector2d 3 4] vector2Creator)
                   (fun k max r => Return (Vector2d (F64.of_int k) max, r))
                   {| draws := fun _ => 0%float; cursor := 0 |})).
  reflexivity.
Defined.


(** ** The refinement loop *)

Section RefinementFacts.
Context {V : Type} `{Vector V}.


Lemma largest_delta_invariant (deltas : list float) :
  (largest_delta deltas = 0%float ∨ largest_delta deltas ∈ deltas)
  ∧ (∀ d, d ∈ deltas → (largest_delta deltas <? d)%float = false)
  ∧ F64.is_nan (largest_delta deltas) = false
  ∧ (largest_delta deltas <? 0)%float = false.
Proof.
  unfold largest_delta. induction deltas as [|x deltas IH] using rev_ind.
  { split; [by left|]. split; [|done]. intros d Hd. by apply elem_of_nil in Hd. }
  rewrite foldl_app. simpl.
  set (m := foldl _ 0%float deltas) in *.
  destruct IH as (Hin & Hmax & Hnan & Hneg).
  destruct (m <? x)%float eqn:Hlt.
  - split; [right; apply elem_of_app; right; by left|]. split; [|split].
    + intros d [Hd| ->%list_elem_of_singleton]%elem_of_app; [|apply F64Facts.ltb_irrefl].
      destruct (x <? d)%float eqn:E; [|done].
      pose proof (F64Facts.ltb_trans _ _ _ Hlt E) as Hcontra. by rewrite Hmax in Hcontra.
    + by apply F64Facts.ltb_true_not_nan in Hlt as [_ ?].
    + destruct (x <? 0)%float eqn:E; [|done].
      pose proof (F64Facts.ltb_trans _ _ _ Hlt E) as Hcontra. by rewrite Hneg in Hcontra.
  - split; [|split; [|done]].
    + destruct Hin as [?|?]; [by left|right]. apply elem_of_app. by left.
    + intros d [Hd| ->%list_elem_of_singleton]%elem_of_app; [by apply Hmax|done].
Qed.

(** With a first centroid present a pass returns, and it keeps the number of
    centroids. *)
Lemma pass_returns (dataset : Dataset V) (centroids : list V) :
  centroids ≠ [] →
  ∃ centroids' deltas,
    (buckets ← collectClusters dataset centroids; createNewCentroids centroids buckets)
    = Return (centroids', deltas)
    ∧ length centroids' = length centroids.
Proof.
  intros Hne.
  destruct (collectClusters_spec dataset centroids Hne) as (buckets & -> & Hlen & _).
  destruct (createNewCentroids_spec centroids buckets Hlen)
    as (centroids' & deltas & Hrun & Hlc & _).
  by exists centroids', deltas.
Qed.

Lemma refine_returns_or_runs (fuel : nat) (dataset : Dataset V) :
  ∀ (maxDelta : float) (centroids : list V),
  centroids ≠ [] →
  refine fuel dataset maxDelta centroids = OutOfFuel
  ∨ ∃ centroids', refine fuel dataset maxDelta centroids = Return centroids'
                  ∧ length centroids' = length centroids.
Proof.
  induction fuel as [|fuel IH]; intros maxDelta centroids Hne; simpl.
  { destruct (threshold <? maxDelta)%float; [by left|right]. by exists centroids. }
  destruct (threshold <? maxDelta)%float; [|right; by exists centroids].
  destruct (pass_returns dataset centroids Hne) as (centroids' & deltas & Hpass & Hlen).
  destruct (collectClusters dataset centroids) as [buckets| |]; [|done..].
  simpl in Hpass |- *. rewrite Hpass. simpl.
  destruct (IH (largest_delta deltas) centroids') as [->|(cs & -> & Hcs)].
  - intros ->. by destruct centroids.
  - by left.
  - right. exists cs. split; [done|]. congruence.
Qed.

(** Without a centroid, and with a record to assign, the loop returns
    nothing. *)
Lemma refine_no_centroids_no_return (fuel : nat) (dataset : Dataset V) (centroids' : list V) :
  AsSlice dataset ≠ [] → refine fuel dataset 1 [] ≠ Return centroids'.
Proof.
  intros Hne. destruct fuel; simpl; [done|].
  unfold collectClusters. by destruct (AsSlice dataset).
Qed.

Lemma IsEmpty_false (dataset : Dataset V) : AsSlice dataset ≠ [] → IsEmpty dataset = false.
Proof.
  unfold IsEmpty, Count, AsSlice. intros Hne. apply Z.eqb_neq.
  destruct (data dataset); [done|]. simpl. lia.
Qed.

Lemma total_count_insert (buckets : list (bucketCollector V)) (i : nat)
    (old new : bucketCollector V) :
  buckets !! i = Some old →
  total_count (<[i := new]> buckets)
  = total_count buckets - normalization old + normalization new.
Proof.
  revert i. induction buckets as [|b buckets IH]; intros [|i] Hi; simplify_eq/=.
  - lia.
  - rewrite (IH i Hi). lia.
Qed.

Lemma total_count_bound (buckets : list (bucketCollector V)) (i : nat)
    (bucket : bucketCollector V) :
  Forall (fun b => 0 <= normalization b) buckets →
  buckets !! i = Some bucket →
  0 <= normalization bucket <= total_count buckets.
Proof.
  intros Hpos. revert i. induction Hpos as [|b buckets Hb Hpos IH]; intros [|i] Hi;
    simplify_eq/=.
  - assert (0 <= total_count buckets); [|lia].
    clear IH. induction Hpos; simpl; lia.
  - specialize (IH i Hi). lia.
Qed.

Lemma collectClusters_loop_counts (centroids : list V) (records : list V) :
  ∀ (buckets buckets' : list (bucketCollector V)),
  Forall (fun b => 0 <= normalization b) buckets →
  total_count buckets + Z.of_nat (length records) <= max_int →
  foldlM (fun buckets record =>
            cluster ← nearest centroids record;
            bucket ← index buckets cluster;
            Return (<[cluster := Collect bucket record]> buckets))
         buckets records = Return buckets' →
  Forall (fun b => 0 <= normalization b) buckets'
  ∧ total_count buckets' = total_count buckets + Z.of_nat (length records).
Proof.
  induction records as [|record records IH]; intros buckets buckets' Hpos Hmax; simpl.
  { intros [= <-]. split; [done|lia]. }
  cbn [length] in Hmax. rewrite Nat2Z.inj_succ in Hmax.
  destruct (nearest centroids record) as [cluster| |]; simpl; [|done..].
  unfold index. destruct (buckets !! cluster) as [bucket|] eqn:Hb; simpl; [|done].
  pose proof (total_count_bound buckets cluster bucket Hpos Hb) as Hbound.
  assert (Hn : normalization (Collect bucket record) = normalization bucket + 1).
  { simpl. apply wrap_int_small. unfold max_int in *. lia. }
  intros Hrun. apply IH in Hrun.
  - destruct Hrun as [Hpos' ->]. split; [done|].
    rewrite (total_count_insert _ _ _ _ Hb), Hn. lia.
  - apply Forall_insert; [done|]. rewrite Hn. lia.
  - rewrite (total_count_insert _ _ _ _ Hb), Hn. lia.
Qed.

Lemma total_count_replicate (n : nat) :
  total_count (replicate n (mkBucket (None : option V) 0)) = 0.
Proof. induction n as [|n IH]; simpl; [done|]. by rewrite IH. Qed.

End RefinementFacts.

(** X13: the largest delta of a pass, to which the threshold is compared,
    is 0 or one of the deltas; no delta exceeds it; and it is never NaN and
    never negative, so that deltas that are NaN do not keep the loop
    running. *)
Theorem largest_delta_is_maximum (deltas : list float) :
  (largest_delta deltas = 0%float ∨ largest_delta deltas ∈ deltas)
  ∧ (∀ d, d ∈ deltas → (largest_delta deltas <? d)%float = false)
  ∧ F64.is_nan (largest_delta deltas) = false
  ∧ (largest_delta deltas <? 0)%float = false
  ∧ largest_delta [nan; nan] = 0%float.
Proof.
  destruct (largest_delta_invariant deltas) as (Hin & Hmax & Hnan & Hneg).
  by repeat split.
Qed.

(** X14: started with at least one centroid, [KMeansWithCentroids] never
    panics: it is still running when the fuel ends, or it returns, and then
    with as many centroids as it was given, or with none when the dataset is
    empty. *)
Theorem KMeansWithCentroids_keeps_the_centroid_count {V : Type} `{Vector V}
    (fuel : nat) (dataset : Dataset V) (centroid0 : V) (rest : list V) :
  KMeansWithCentroids fuel dataset (centroid0 :: rest) = OutOfFuel
  ∨ ∃ clusterer,
      KMeansWithCentroids fuel dataset (centroid0 :: rest) = Return clusterer
      ∧ length clusterer = (if IsEmpty dataset then 0 else S (length rest))%nat
      ∧ length (Clusters clusterer) = length clusterer.
Proof.
  unfold KMeansWithCentroids. destruct (IsEmpty dataset).
  { right. by exists []. }
  destruct (refine_returns_or_runs fuel dataset 1 (centroid0 :: rest)) as [->|(cs & -> & Hcs)];
    [done|by left|].
  right. exists cs. split; [done|]. split; [done|]. apply Clusters_length.
Qed.

(** X15: on a dataset that holds a vector, when [KMeansWithSampler] returns
    a clusterer, [k] was at least 1 and the clusterer has exactly [k]
    centroids. *)
Theorem KMeansWithSampler_returns_k_clusters {V : Type} `{Vector V}
    (fuel : nat) (dataset : Dataset V) (k : Z) (sampler : Sampler V) (r : Rand)
    (clusterer : list V) (r' : Rand) :
  AsSlice dataset ≠ [] →
  KMeansWithSampler fuel dataset k sampler r = Return (clusterer, r') →
  1 <= k ∧ Z.of_nat (length clusterer) = k ∧ Z.of_nat (length (Clusters clusterer)) = k.
Proof.
  intros Hne. unfold KMeansWithSampler, KMeansWithCentroids.
  rewrite (IsEmpty_false dataset Hne).
  destruct (makeCentroids k dataset sampler r) as [[centroids r1]| |] eqn:Hmake;
    simpl; [|done..].
  apply makeCentroids_loop_length_k in Hmake as [Hk Hlen].
  destruct centroids as [|c0 rest].
  - destruct (refine fuel dataset 1 []) as [cs| |] eqn:Hrun; simpl; [|done..].
    by apply refine_no_centroids_no_return in Hrun.
  - destruct (refine_returns_or_runs fuel dataset 1 (c0 :: rest)) as [->|(cs & -> & Hcs)];
      [done|done|].
    simpl. intros [= <- <-]. rewrite Clusters_length, Hcs. simpl in *. lia.
Qed.

(** The theorem at the dataset [(3, 4)] and [k = 1], the sampler returning
    (0, 0). *)
Lemma KMeansWithSampler_returns_k_clusters_witness :
  AsSlice (mkDataset [Vector2d 3 4] vector2Creator) ≠ []
  ∧ KMeansWithSampler 2 (mkDataset [Vector2d 3 4] vector2Creator) 1
      (fun k max r => Return (Vector2d 0 0, r)) {| draws := fun _ => 0%float; cursor := 0 |}
    = Return ([Vector2d 3 4], {| draws := fun _ => 0%float; cursor := 0 |})
  ∧ 1 <= 1 ∧ Z.of_nat (length [Vector2d 3 4]) = 1
  ∧ Z.of_nat (length (Clusters [Vector2d 3 4])) = 1.
Proof.
  assert (Hne : AsSlice (mkDataset [Vector2d 3 4] vector2Creator) ≠ []) by discriminate.
  assert (Hrun : KMeansWithSampler 2 (mkDataset [Vector2d 3 4] vector2Creator) 1
                   (fun k max r => Return (Vector2d 0 0, r))
                   {| draws := fun _ => 0%float; cursor := 0 |}
                 = Return ([Vector2d 3 4], {| draws := fun _ => 0%float; cursor := 0 |}))
    by reflexivity.
  split; [exact Hne|]. split; [exact Hrun|].
  exact (KMeansWithSampler_returns_k_clusters 2 _ 1 _ _ _ _ Hne Hrun).
Defined.

(** X16: when the assignment step returns, the counts of its buckets are
    not negative and add up to the number of records of the dataset: every
    record is counted in exactly one bucket.  The dataset is a slice, so its
    length fits an [int]. *)
Theorem collectClusters_counts_every_record {V : Type} `{Vector V}
    (dataset : Dataset V) (centroids : list V) (buckets : list (bucketCollector V)) :
  Z.of_nat (length (AsSlice dataset)) <= max_int →
  collectClusters dataset centroids = Return buckets →
  Forall (fun bucket => 0 <= normalization bucket) buckets
  ∧ total_count buckets = Z.of_nat (length (AsSlice dataset)).
Proof.
  intros Hmax Hrun. unfold collectClusters in Hrun.
  apply collectClusters_loop_counts in Hrun.
  - by rewrite total_count_replicate in Hrun.
  - apply Forall_replicate. simpl. lia.
  - by rewrite total_count_replicate.
Qed.

(** The theorem at two centroids and three records. *)
Lemma collectClusters_counts_every_record_witness :
  Z.of_nat (length (AsSlice (mkDataset [Vector2d 1 1; Vector2d 9 9; Vector2d 0 1]
                               vector2Creator))) <= max_int
  ∧ collectClusters (mkDataset [Vector2d 1 1; Vector2d 9 9; Vector2d 0 1] vector2Creator)
      [Vector2d 0 0; Vector2d 10 10]
    = Return [mkBucket (Some (Vector2d 1 2)) 2; mkBucket (Some (Vector2d 9 9)) 1]
  ∧ total_count [mkBucket (Some (Vector2d 1 2)) 2; mkBucket (Some (Vector2d 9 9)) 1] = 3.
Proof.
  assert (Hmax : Z.of_nat (length (AsSlice (mkDataset [Vector2d 1 1; Vector2d 9 9; Vector2d 0 1]
                                              vector2Creator))) <= max_int)
    by (vm_compute; discriminate).
  assert (Hrun : collectClusters
                   (mkDataset [Vector2d 1 1; Vector2d 9 9; Vector2d 0 1] vector2Creator)
                   [Vector2d 0 0; Vector2d 10 10]
                 = Return [mkBucket (Some (Vector2d 1 2)) 2; mkBucket (Some (Vector2d 9 9)) 1])
    by reflexivity.
  split; [exact Hmax|]. split; [exact Hrun|].
  exact (proj2 (collectClusters_counts_every_record _ _ _ Hmax Hrun)).
Defined.

(** ** The example program: [generateData] *)



(** ** What a returned clusterer satisfies *)

Section ReturnFacts.
Context {V : Type} `{Vector V}.



(** Visited in the order of [Clusters], the map of centroids yields the
    centroids with their positions. *)
Lemma range_map_from (m : gmap Z V) (clusterer : list V) :
  ∀ a : nat,
  (∀ i c, clusterer !! i = Some c → m !! Z.of_nat (a + i) = Some c) →
  range_map ((fun i : nat => Z.of_nat i) <$> seq a (length clusterer)) m
  = imap (fun i c => (Z.of_nat (a + i), c)) clusterer.
Proof.
  unfold range_map. induction clusterer as [|c rest IH]; intros a Hm; simpl; [done|].
  pose proof (Hm 0%nat c eq_refl) as Hhead. rewrite Nat.add_0_r in Hhead |- *.
  rewrite Hhead. simpl. f_equal. rewrite IH.
  - apply imap_ext. intros i x _. simpl. do 2 f_equal. lia.
  - intros i x Hi. replace (S a + i)%nat with (a + S i)%nat by lia. by apply Hm.
Qed.

(** The two scans take the same steps when distances do not depend on the
    receiver. *)
Lemma scans_agree (v : V) (l : list V) :
  (∀ c, c ∈ l → DistanceTo c v = DistanceTo v c) →
  ∀ (a : nat) (cluster : nat) (centroid : V),
  let found := foldl (FindCluster_step v) (Z.of_nat cluster, centroid)
                 (imap (fun i c => (Z.of_nat (a + i), c)) l) in
  let best := foldl (nearest_step v) (cluster, DistanceTo centroid v)
                (imap (fun i c => ((a + i)%nat, c)) l) in
  found.1 = Z.of_nat best.1 ∧ best.2 = DistanceTo found.2 v.
Proof.
  induction l as [|c l IH]; intros Hsym a cluster centroid; simpl; [done|].
  rewrite <- (Hsym c) by (by left).
  destruct (DistanceTo c v <? DistanceTo centroid v)%float.
  - rewrite (imap_ext _ (fun i c => (Z.of_nat (S a + i), c)) l)
      by (intros; simpl; do 2 f_equal; lia).
    rewrite (imap_ext (_ ∘ S) (fun i c => ((S a + i)%nat, c)) l)
      by (intros; simpl; f_equal; lia).
    rewrite Nat.add_0_r. apply IH. intros c' Hc'. apply Hsym. by right.
  - rewrite (imap_ext _ (fun i c => (Z.of_nat (S a + i), c)) l)
      by (intros; simpl; do 2 f_equal; lia).
    rewrite (imap_ext (_ ∘ S) (fun i c => ((S a + i)%nat, c)) l)
      by (intros; simpl; f_equal; lia).
    apply IH. intros c' Hc'. apply Hsym. by right.
Qed.

End ReturnFacts.



(** X19: when the map of centroids is visited in the order of the
    identifiers, which is one of the orders it can be visited in,
    [FindCluster] returns the index that the assignment step of K-Means
    picks for the same vector.  The distance between the vector and a
    centroid is assumed not to depend on which of the two is the receiver. *)
Theorem FindCluster_in_identifier_order {V : Type} `{Vector V}
    (centroid0 : V) (rest : list V) (v : V) :
  (∀ c, c ∈ centroid0 :: rest → DistanceTo c v = DistanceTo v c) →
  visits_each_key_once (Clusters (centroid0 :: rest)) (Centroids (centroid0 :: rest))
  ∧ FindCluster (Clusters (centroid0 :: rest)) (centroid0 :: rest) v
    = Return (Z.of_nat (nearest_index (centroid0 :: rest) v), None).
Proof.
  intros Hsym. split.
  { split; [|intros k; symmetry; apply Centroids_is_Some].
    unfold Clusters. apply NoDup_fmap_2; [|apply NoDup_seq]. intros i j Hij. lia. }
  rewrite FindCluster_cons, nearest_index_cons. unfold Clusters, scan.
  rewrite (range_map_from _ (centroid0 :: rest) 0).
  - destruct (scans_agree v (centroid0 :: rest) Hsym 0 0 centroid0) as [Hfound _].
    do 2 f_equal. exact Hfound.
  - intros i c Hi. pose proof (lookup_lt_Some _ _ _ Hi).
    rewrite Centroids_lookup, decide_True by (simpl in *; lia). by rewrite Nat2Z.id.
Qed.

(** The theorem at three centroids of which the last two are equally near:
    both scans pick index 1. *)
Lemma FindCluster_in_identifier_order_witness :
  FindCluster (Clusters [Vector2d 3 0; Vector2d 1 0; Vector2d (-1) 0])
    [Vector2d 3 0; Vector2d 1 0; Vector2d (-1) 0] (Vector2d 0 0)
  = Return (Z.of_nat (nearest_index [Vector2d 3 0; Vector2d 1 0; Vector2d (-1) 0]
                        (Vector2d 0 0)), None)
  ∧ nearest_index [Vector2d 3 0; Vector2d 1 0; Vector2d (-1) 0] (Vector2d 0 0) = 1%nat.
Proof.
  split; [|reflexivity].
  apply (FindCluster_in_identifier_order (Vector2d 3 0) [Vector2d 1 0; Vector2d (-1) 0]
           (Vector2d 0 0)).
  intros c Hc. repeat (apply elem_of_cons in Hc as [->|Hc]; [reflexivity|]).
  by apply elem_of_nil in Hc.
Defined.
